(** * Verification of the segment-selection pipeline of [app/build_summary.py]

    Time values (Python floats) are modelled as exact rationals [Q]; the
    media library (decoding, scoring of frames and audio, writing files) is
    modelled as an environment the code calls.  Loops that may not
    terminate are run on fuel, and running out of fuel is reported as
    [None] (or [Hang]), with lemmas showing that the fuel given is enough
    whenever the Python loop terminates. *)

From Stdlib Require Import QArith Qround Qabs Lqa List String Ascii Bool Lia ZArith Sorted Setoid Morphisms.
Import ListNotations.
Open Scope Q_scope.

(** ** Comparisons as the Python code performs them *)

Definition Qltb (x y : Q) : bool := negb (Qle_bool y x).
Definition Qleb (x y : Q) : bool := Qle_bool x y.

(** Python's [min(a, b)] keeps [a] unless [b < a]. *)
Definition py_min (a b : Q) : Q := if Qltb b a then b else a.

(** ** Segment Splitter: [split_in_segments] *)

(** A window [(t_start, t_end)]. *)
Definition window : Type := (Q * Q)%type.

(** The loop variables of [split_in_segments]: [t] and [segments]. *)
Record split_state := mk_split_state { sp_t : Q; sp_segments : list window }.

(** One iteration of the [while t < clip.duration] body. *)
Definition split_step (duration segment_length : Q) (s : split_state) : split_state :=
  let t := sp_t s in
  let t_end := py_min (t + segment_length) duration in
  mk_split_state t_end
    (if Qleb 1 (t_end - t) then sp_segments s ++ [(t, t_end)] else sp_segments s).

(** The [while] loop on fuel: [None] when the fuel runs out before
    [t < clip.duration] becomes false. *)
Fixpoint split_loop (fuel : nat) (duration segment_length : Q) (s : split_state)
  : option (list window) :=
  match fuel with
  | O => None
  | S f =>
      if Qltb (sp_t s) duration
      then split_loop f duration segment_length (split_step duration segment_length s)
      else Some (sp_segments s)
  end.

(** Enough fuel for a positive [segment_length]: one iteration per window
    plus the final test (see [split_loop_enough]). *)
Definition split_fuel (duration segment_length : Q) : nat :=
  if Qltb 0 segment_length
  then S (Z.to_nat (Qceiling (duration / segment_length)))
  else 1.

Definition split_in_segments (duration segment_length : Q) : option (list window) :=
  split_loop (split_fuel duration segment_length) duration segment_length
    (mk_split_state 0 []).

(** ** Clips and the [Segment] dataclass *)

(** A loaded, normalized clip: [clip_id] is its position in the list built
    by [load_and_normalize_vids] (it names the decoder handle of the clip),
    [duration] is [clip.duration]. *)
Record clip := mk_clip { clip_id : nat; duration : Q }.

Record Segment := mk_Segment {
  seg_clip : clip;
  t_start : Q;
  t_end : Q;
  score : Q;
  clip_index : nat
}.

(** ** Best-Segment Selector: [extract_best_segment_per_clip] *)

Section Selector.

(** [segment_score(clip, ts, te)] with the default weights; a deterministic
    function of the clip and the window. *)
Variable segment_score : clip -> Q -> Q -> Q.

(** [s > best_score], where [best_score] starts at [float("-inf")],
    represented by [None]. *)
Definition gt_best (s : Q) (best_score : option Q) : bool :=
  match best_score with
  | None => true
  | Some b => Qltb b s
  end.

(** The inner [for (ts, te) in seg_times] loop, with its two variables
    [best_seg] and [best_score]. *)
Fixpoint best_loop (c : clip) (idx : nat) (seg_times : list window)
    (best_seg : option Segment) (best_score : option Q) : option Segment :=
  match seg_times with
  | [] => best_seg
  | (ts, te) :: rest =>
      let s := segment_score c ts te in
      if gt_best s best_score
      then best_loop c idx rest (Some (mk_Segment c ts te s idx)) (Some s)
      else best_loop c idx rest best_seg best_score
  end.

(** The outer [for idx, clip in enumerate(clips)] loop.  [None]: the call
    of [split_in_segments] on some clip does not terminate. *)
Fixpoint extract_loop (idx : nat) (clips : list clip) (segment_length : Q)
    (best_segments : list Segment) : option (list Segment) :=
  match clips with
  | [] => Some best_segments
  | c :: cs =>
      match split_in_segments (duration c) segment_length with
      | None => None
      | Some seg_times =>
          let best_segments' :=
            match best_loop c idx seg_times None None with
            | Some b => best_segments ++ [b]
            | None => best_segments
            end in
          extract_loop (S idx) cs segment_length best_segments'
      end
  end.

Definition extract_best_segment_per_clip (clips : list clip) (segment_length : Q)
  : option (list Segment) :=
  extract_loop 0 clips segment_length [].

End Selector.

(** ** Exceptions *)

(** [SubclipStartError t d] is the [ValueError] that moviepy's
    [subclip] raises with the message ["t_start (t) should be smaller
    than the clip's duration (d)."]. *)
Inductive exn :=
| ValueError (msg : string)
| SubclipStartError (t_start clip_duration : Q)
| WriteError
| DecodeError (msg : string).

(** A call that returns a value or raises. *)
Definition exc_bind {A B} (m : exn + A) (k : A -> exn + B) : exn + B :=
  match m with
  | inl e => inl e
  | inr a => k a
  end.

Notation "x <-? m ;; k" := (exc_bind m (fun x => k)) (at level 61, m at next level, right associativity).

Definition exc_map {A B} (f : A -> B) (m : exn + A) : exn + B :=
  match m with
  | inl e => inl e
  | inr a => inr (f a)
  end.

(** ** Budget Packer: [arrange_best_segments] *)

(** A sub-clip: the part [[sub_start, sub_end]] of [sub_clip], read
    through the clip's decoder. *)
Record subclip := mk_subclip { sub_clip : clip; sub_start : Q; sub_end : Q }.

Definition sub_duration (s : subclip) : Q := sub_end s - sub_start s.

(** [c.subclip(t_start, t_end)] of moviepy 1.x ([Clip.subclip], which the
    [moviepy.editor] import of the code selects): a negative time counts
    back from the end of the clip ([c.duration + t]); a start after the end
    raises [ValueError]; an end after the end is not checked.  The audio
    track of the clip is cut the same way (it is taken to last as long as
    the clip). *)
Definition subclip_of (c : clip) (t_start t_end : Q) : exn + subclip :=
  let t_start' := if Qltb t_start 0 then duration c + t_start else t_start in
  if Qltb (duration c) t_start'
  then inl (SubclipStartError t_start' (duration c))
  else inr (mk_subclip c t_start' (if Qltb t_end 0 then duration c + t_end else t_end)).

(** The loop over [segments], with its variables [selected_clips] and
    [total]; [break] returns the current values; an exception of
    [subclip] leaves the loop and the function. *)
Fixpoint arrange_loop (segments : list Segment) (max_total_duration min_segment_duration : Q)
    (selected_clips : list subclip) (total : Q) : exn + (list subclip * Q) :=
  match segments with
  | [] => inr (selected_clips, total)
  | seg :: rest =>
      let dur := t_end seg - t_start seg in
      if Qltb dur min_segment_duration
      then arrange_loop rest max_total_duration min_segment_duration selected_clips total
      else if Qltb max_total_duration (total + dur)
      then
        let remaining := max_total_duration - total in
        if Qleb min_segment_duration remaining
        then
          sub <-? subclip_of (seg_clip seg) (t_start seg) (t_start seg + remaining) ;;
          inr (selected_clips ++ [sub], total + remaining)
        else inr (selected_clips, total)
      else
        sub <-? subclip_of (seg_clip seg) (t_start seg) (t_end seg) ;;
        arrange_loop rest max_total_duration min_segment_duration
          (selected_clips ++ [sub]) (total + dur)
  end.

Definition arrange_best_segments (segments : list Segment)
    (max_total_duration min_segment_duration : Q) : exn + list subclip :=
  exc_map fst (arrange_loop segments max_total_duration min_segment_duration [] 0).

(** The total printed as ["Total length (smart)"]. *)
Definition arrange_total (segments : list Segment)
    (max_total_duration min_segment_duration : Q) : exn + Q :=
  exc_map snd (arrange_loop segments max_total_duration min_segment_duration [] 0).

(** Sum of the durations of the extracts, in list order. *)
Definition sum_durations (l : list subclip) : Q :=
  fold_left (fun acc s => acc + sub_duration s) l 0.

(** ** Input enumeration: [available_vids] *)

Definition FORMATS : list string := [".mp4"; ".avi"; ".mkv"; ".mov"]%string.

(** An entry of [folder.iterdir()], in the order the directory lists it. *)
Record dir_entry := mk_entry { entry_name : string; entry_is_file : bool }.

Record directory := mk_directory { dir_path : string; dir_entries : list dir_entry }.

(** [name.rfind('.')], [None] for [-1]. *)
Fixpoint rfind_dot (s : string) (i : nat) (found : option nat) : option nat :=
  match s with
  | EmptyString => found
  | String c s' => rfind_dot s' (S i) (if Ascii.eqb c "."%char then Some i else found)
  end.

(** [PurePath.suffix]: [name[i:]] when [0 < i < len(name) - 1], else [''].*)
Definition suffix (name : string) : string :=
  match rfind_dot name 0 None with
  | Some i =>
      if (Nat.ltb 0 i && Nat.ltb i (String.length name - 1))%bool
      then substring i (String.length name - i) name
      else ""%string
  | None => ""%string
  end.

Definition in_FORMATS (s : string) : bool := existsb (String.eqb s) FORMATS.

Definition available_vids (folder : directory) : list dir_entry :=
  filter (fun v => entry_is_file v && in_FORMATS (suffix (entry_name v)))%bool
    (dir_entries folder).

(** ** Effects: resources, output file, exceptions *)

(** Objects holding resources.  A sub-clip shares the decoder of its clip,
    so closing it releases [HClip] of that clip. *)
Inductive handle :=
| HClip (n : nat)   (* the decoder of the n-th normalized clip *)
| HFinal            (* the concatenated [final_clip] *)
| HMusic            (* [AudioFileClip(bg_music_path)] *)
| HLoop             (* [afx.audio_loop(music_clip, ...)] *)
| HLoopVol          (* [music_loop.volumex(music_vol)] *)
| HMixed.           (* [CompositeAudioClip([...])] *)

Definition handle_eq_dec (h1 h2 : handle) : {h1 = h2} + {h1 <> h2}.
Proof. decide equality; apply PeanoNat.Nat.eq_dec. Defined.

Inductive event :=
| EOpen (h : handle)
| EClose (h : handle)
| EWrite (path : string).

(** Result of a call: it returns, raises, or never returns. *)
Inductive outcome (A : Type) :=
| Normal (a : A)
| Raised (e : exn)
| Hang.
Arguments Normal {A} a.
Arguments Raised {A} e.
Arguments Hang {A}.

(** The trace of I/O events and the three locals [music_clip],
    [music_loop], [mixed_audio] of [concat_and_export]. *)
Record state := mk_state {
  st_trace : list event;
  st_music_clip : option handle;
  st_music_loop : option handle;
  st_mixed_audio : option handle
}.

Definition M (A : Type) : Type := state -> outcome A * state.

Definition ret {A} (a : A) : M A := fun s => (Normal a, s).

Definition bind {A B} (m : M A) (k : A -> M B) : M B :=
  fun s =>
    match m s with
    | (Normal a, s') => k a s'
    | (Raised e, s') => (Raised e, s')
    | (Hang, s') => (Hang, s')
    end.

Notation "x <- m ;; k" := (bind m (fun x => k)) (at level 61, m at next level, right associativity).
Notation "m ;;; k" := (bind m (fun _ => k)) (at level 61, right associativity).

Definition raise {A} (e : exn) : M A := fun s => (Raised e, s).

Definition emit (e : event) : M unit :=
  fun s => (Normal tt, mk_state (st_trace s ++ [e]) (st_music_clip s) (st_music_loop s) (st_mixed_audio s)).

Definition set_music_clip (v : option handle) : M unit :=
  fun s => (Normal tt, mk_state (st_trace s) v (st_music_loop s) (st_mixed_audio s)).
Definition set_music_loop (v : option handle) : M unit :=
  fun s => (Normal tt, mk_state (st_trace s) (st_music_clip s) v (st_mixed_audio s)).
Definition set_mixed_audio (v : option handle) : M unit :=
  fun s => (Normal tt, mk_state (st_trace s) (st_music_clip s) (st_music_loop s) v).

Definition get_locals : M (list (option handle)) :=
  fun s => (Normal [st_mixed_audio s; st_music_loop s; st_music_clip s], s).

(** [try: body finally: fin]; a body that never returns never reaches
    the [finally] clause. *)
Definition try_finally {A} (body : M A) (fin : M unit) : M A :=
  fun s =>
    match body s with
    | (Hang, s1) => (Hang, s1)
    | (r, s1) =>
        match fin s1 with
        | (Normal _, s2) => (r, s2)
        | (Raised e, s2) => (Raised e, s2)
        | (Hang, s2) => (Hang, s2)
        end
    end.

Fixpoint for_each {A} (f : A -> M unit) (l : list A) : M unit :=
  match l with
  | [] => ret tt
  | x :: xs => f x ;;; for_each f xs
  end.

(** Handles opened and not closed since, along a trace. *)
Definition open_handles (tr : list event) : list handle :=
  fold_left (fun hs e =>
    match e with
    | EOpen h => h :: hs
    | EClose h => remove handle_eq_dec h hs
    | EWrite _ => hs
    end) tr [].

Definition writes (tr : list event) : list string :=
  flat_map (fun e => match e with EWrite p => [p] | _ => [] end) tr.

Definition opens (tr : list event) : list handle :=
  flat_map (fun e => match e with EOpen h => [h] | _ => [] end) tr.

(** The media library as the pipeline sees it. *)
Record media_env := mk_env {
  env_duration : string -> Q;            (* [VideoFileClip(path).duration] *)
  env_score : clip -> Q -> Q -> Q;       (* [segment_score] *)
  env_exists : string -> bool;           (* [Path.exists] *)
  env_has_audio : bool;                  (* [final_clip.audio is not None] *)
  env_write_ok : bool                    (* [write_videofile] succeeds *)
}.

(** ** Exporter: [concat_and_export] *)

Definition close_clip (c : subclip) : M unit := emit (EClose (HClip (clip_id (sub_clip c)))).

Definition close_audio (au : option handle) : M unit :=
  match au with
  | Some h => emit (EClose h)
  | None => ret tt
  end.

(** [final_clip.write_videofile(...)]: creates the file, then may fail. *)
Definition write_videofile (env : media_env) (path : string) : M unit :=
  emit (EWrite path) ;;;
  if env_write_ok env then ret tt else raise WriteError.

Definition concat_and_export (env : media_env) (clips : list subclip) (export_path : string)
    (bg_music_path : option string) : M unit :=
  set_music_clip None ;;; set_music_loop None ;;; set_mixed_audio None ;;;
  try_finally
    (match clips with
     | [] => raise (ValueError "No clips selected.")
     | _ :: _ =>
         emit (EOpen HFinal) ;;;
         (match bg_music_path with
          | Some p =>
              if env_exists env p then
                emit (EOpen HMusic) ;;; set_music_clip (Some HMusic) ;;;
                emit (EOpen HLoop) ;;; set_music_loop (Some HLoop) ;;;
                emit (EOpen HLoopVol) ;;; set_music_loop (Some HLoopVol) ;;;
                (if env_has_audio env
                 then emit (EOpen HMixed) ;;; set_mixed_audio (Some HMixed)
                 else set_mixed_audio (Some HLoopVol))
              else ret tt
          | None => ret tt
          end) ;;;
         write_videofile env export_path ;;;
         emit (EClose HFinal)
     end)
    (for_each close_clip clips ;;;
     locals <- get_locals ;;
     for_each close_audio locals).

(** ** Pipeline Orchestrator: [build_travel_summary_smart] *)

Fixpoint load_loop (env : media_env) (i : nat) (vids : list dir_entry) : M (list clip) :=
  match vids with
  | [] => ret []
  | v :: vs =>
      emit (EOpen (HClip i)) ;;;
      rest <- load_loop env (S i) vs ;;
      ret (mk_clip i (env_duration env (entry_name v)) :: rest)
  end.

Definition load_and_normalize_vids (env : media_env) (folder : directory) : M (list clip) :=
  load_loop env 0 (available_vids folder).

Definition of_option {A} (o : option A) : M A :=
  match o with
  | Some a => ret a
  | None => fun s => (Hang, s)
  end.

Definition of_exc {A} (r : exn + A) : M A :=
  match r with
  | inr a => ret a
  | inl e => raise e
  end.

(** [arrange_best_segments] is called with its default [min_segment_duration = 1.5]. *)
Definition build_travel_summary_smart (env : media_env) (video_dir : directory)
    (output_path : string) (segment_length max_total_duration : Q)
    (bg_music_path : option string) : M unit :=
  match available_vids video_dir with
  | [] => raise (ValueError ("No videos found in " ++ dir_path video_dir))
  | _ :: _ =>
      clips <- load_and_normalize_vids env video_dir ;;
      segments <- of_option (extract_best_segment_per_clip (env_score env) clips segment_length) ;;
      selected_clips <- of_exc (arrange_best_segments segments max_total_duration (3#2)) ;;
      concat_and_export env selected_clips output_path bg_music_path
  end.

Definition init_state : state := mk_state [] None None None.

(** ** Audio Scorer: [audio_energy_for_segment] *)

(** [audio_subclip.to_soundarray(...)]: one value per sample, or one row
    of channel values per sample ([arr.ndim == 2]). *)
Inductive sound_array :=
| Mono (xs : list Q)
| Multi (rows : list (list Q)).

(** The line printed by the [except] clause. *)
Record warning := Warn { warn_t_start : Q; warn_t_end : Q; warn_exn : exn }.

(** [a or b] on an optional float: [b] when [a] is [None] or [0.0]. *)
Definition py_or (a : option Q) (b : Q) : Q :=
  match a with
  | Some x => if Qeq_bool x 0 then b else x
  | None => b
  end.

(** Python's [max(a, b)] keeps [a] unless [b > a]. *)
Definition py_max (a b : Q) : Q := if Qltb a b then b else a.

(** [int(x)]: truncation towards zero. *)
Definition py_int (x : Q) : Z := Z.quot (Qnum x) (Zpos (Qden x)).

(** [np.linspace(start, stop, num, endpoint=False)]. *)
Definition linspace_open (start stop : Q) (num : Z) : list Q :=
  map (fun i => start + inject_Z (Z.of_nat i) * ((stop - start) / inject_Z num))
    (seq 0 (Z.to_nat num)).

Definition mean (xs : list Q) : Q :=
  fold_left Qplus xs 0 / inject_Z (Z.of_nat (List.length xs)).

Section AudioScorer.

(** The audio objects of the media library and the calls the scorer makes
    on them; a call that fails returns [inl]. *)
Variable audio : Type.
Variable clip_audio : clip -> option audio.                      (* [clip.audio] *)
Variable audio_subclip : audio -> Q -> Q -> exn + audio.         (* [.subclip(t_start, t_end)] *)
Variable audio_duration : audio -> option Q.                     (* [.duration] *)
Variable to_soundarray : audio -> list Q -> Z -> exn + sound_array. (* [.to_soundarray(tt, fps)] *)
Variable sqrt : Q -> Q.                                          (* [np.sqrt] *)

(** The body of the [try] block. *)
Definition audio_energy_body (a : audio) (t_start t_end : Q) : exn + Q :=
  audio_subclip' <-? audio_subclip a t_start t_end ;;
  let duration := py_or (audio_duration audio_subclip') (t_end - t_start) in
  if Qleb duration 0 then inr 0 else
  let eps := 1#1000 in
  let effective_duration := py_max 0 (duration - eps) in
  if Qleb effective_duration 0 then inr 0 else
  let num_samples := Z.min 1000 (py_int (duration * 1000)) in
  if Z.leb num_samples 0 then inr 0 else
  let times := linspace_open 0 duration num_samples in
  arr <-? to_soundarray audio_subclip' times 22050 ;;
  let arr_mono := match arr with
                  | Multi rows => map mean rows
                  | Mono xs => xs
                  end in
  inr (sqrt (mean (map (fun x => x * x) arr_mono))).

(** The function: its result (or exception) and the warnings it prints. *)
Definition audio_energy_for_segment (c : clip) (t_start t_end : Q) : (exn + Q) * list warning :=
  match clip_audio c with
  | None => (inr 0, [])
  | Some a =>
      match audio_energy_body a t_start t_end with
      | inl e => (inr 0, [Warn t_start t_end e])
      | inr rms => (inr rms, [])
      end
  end.

End AudioScorer.

(** ** Properties used in the statements *)

(** The [k]-th window of a clip of length [D] cut in steps of [L]. *)
Definition ideal_window (D L : Q) (k : nat) : window :=
  (inject_Z (Z.of_nat k) * L, py_min (inject_Z (Z.of_nat (S k)) * L) D).

Definition win_eq (w1 w2 : window) : Prop := fst w1 == fst w2 /\ snd w1 == snd w2.

(** [ws] are the windows [[0, L)], [[L, 2L)], ... of a clip of length [D]
    in order, the last one cut at [D], and they cover [[0, D)] except a
    trailing remainder shorter than 1. *)
Definition covers_in_steps (D L : Q) (ws : list window) : Prop :=
  (forall k, (k < List.length ws)%nat -> win_eq (nth k ws (0, 0)) (ideal_window D L k)) /\
  (D <= inject_Z (Z.of_nat (List.length ws)) * L \/
   (inject_Z (Z.of_nat (List.length ws)) * L < D /\
    D - inject_Z (Z.of_nat (List.length ws)) * L < 1)).

(** Every window kept lies in [[0, D]], is non-empty and lasts at least 1. *)
Definition good_window (D : Q) (w : window) : Prop :=
  1 <= snd w - fst w /\ 0 <= fst w /\ fst w < snd w /\ snd w <= D.

(** The loop invariant of the windows in steps of [L]. *)
Definition split_inv (D L : Q) (s : split_state) : Prop :=
  (sp_t s == inject_Z (Z.of_nat (List.length (sp_segments s))) * L /\
   inject_Z (Z.of_nat (List.length (sp_segments s))) * L <= D /\
   (forall k, (k < List.length (sp_segments s))%nat ->
      win_eq (nth k (sp_segments s) (0, 0)) (ideal_window D L k)))
  \/ (D <= sp_t s /\ covers_in_steps D L (sp_segments s)).

(** Packing: the segments that are not skipped, their durations as the
    code sums them, and the two kinds of extracts. *)
Definition seg_dur (s : Segment) : Q := t_end s - t_start s.

Definition kept_segments (segments : list Segment) (min_segment_duration : Q) : list Segment :=
  filter (fun s => negb (Qltb (seg_dur s) min_segment_duration)) segments.

Definition running_total (l : list Segment) (total : Q) : Q :=
  fold_left (fun acc s => acc + seg_dur s) l total.

Definition whole (s : Segment) : subclip := mk_subclip (seg_clip s) (t_start s) (t_end s).

Definition truncated (s : Segment) (remaining : Q) : subclip :=
  mk_subclip (seg_clip s) (t_start s) (t_start s + remaining).

(** [out] is the packing of [segments] from the running total [total]:
    the first [k] kept segments whole, each fitting the budget, then
    either nothing more (all kept segments fit) or, for the first kept
    segment that overflows, a truncated extract of [remaining] when
    [remaining >= min_segment_duration] and nothing otherwise. *)
Definition packs (segments : list Segment) (max_total_duration min_segment_duration total : Q)
    (out : list subclip) : Prop :=
  let fs := kept_segments segments min_segment_duration in
  exists k tail,
    (k <= List.length fs)%nat /\
    out = map whole (firstn k fs) ++ tail /\
    (forall j, (j < k)%nat -> running_total (firstn (S j) fs) total <= max_total_duration) /\
    ((k = List.length fs /\ tail = []) \/
     (exists s, nth_error fs k = Some s /\
        max_total_duration < running_total (firstn k fs) total + seg_dur s /\
        tail = (let remaining := max_total_duration - running_total (firstn k fs) total in
                if Qleb min_segment_duration remaining then [truncated s remaining] else []))).

(** Selection: what one clip contributes. *)
Definition option_list {A} (o : option A) : list A :=
  match o with Some a => [a] | None => [] end.

Definition clip_pick (segment_score : clip -> Q -> Q -> Q) (segment_length : Q)
    (idx : nat) (c : clip) : list Segment :=
  match split_in_segments (duration c) segment_length with
  | Some seg_times => option_list (best_loop segment_score c idx seg_times None None)
  | None => []
  end.

Fixpoint picks (segment_score : clip -> Q -> Q -> Q) (segment_length : Q)
    (idx : nat) (clips : list clip) : list Segment :=
  match clips with
  | [] => []
  | c :: cs => clip_pick segment_score segment_length idx c ++
               picks segment_score segment_length (S idx) cs
  end.

(** The window chosen for a clip: [w] is the earliest window of maximal
    score among [ws]. *)
Definition earliest_max (f : window -> Q) (ws : list window) (w : window) : Prop :=
  exists pre post, ws = pre ++ w :: post /\
    Forall (fun v => f v < f w) pre /\ Forall (fun v => f v <= f w) post.

Definition seg_window (s : Segment) : nat * Q * Q := (clip_index s, t_start s, t_end s).

Definition sub_window (s : subclip) : Q * Q := (sub_start s, sub_end s).

Definition seg_clip_duration (s : Segment) : Q := duration (seg_clip s).

(** A segment whose window starts within its clip and does not end before
    0, as every window of [split_in_segments] does. *)
Definition seg_in_clip (s : Segment) : Prop :=
  0 <= t_start s /\ t_start s <= duration (seg_clip s) /\ 0 <= t_end s.

(** ** The duration-based pipeline of [app/video_processor.py]
    (the same code is in [scripts/concat_videos.py]) *)

Module VideoProcessor.

(** A clip passed on to the exporter: the normalized clip itself
    ([cutted = clip]) or one of its sub-clips. *)
Inductive vclip :=
| Full (c : clip)
| Cut (s : subclip).

Definition vclip_source (v : vclip) : clip :=
  match v with Full c => c | Cut s => sub_clip s end.

Definition vclip_start (v : vclip) : Q :=
  match v with Full _ => 0 | Cut s => sub_start s end.

Definition vclip_duration (v : vclip) : Q :=
  match v with Full c => duration c | Cut s => sub_duration s end.

(** The loop of [selected_by_duration] with its variables [selected] and
    [total]; an exception of [subclip] leaves the loop and the function. *)
Fixpoint selected_loop (clips : list clip) (max_total_length min_clip_length max_clip_length : Q)
    (selected : list vclip) (total : Q) : exn + (list vclip * Q) :=
  match clips with
  | [] => inr (selected, total)
  | c :: rest =>
      let duration0 := duration c in
      if Qltb duration0 min_clip_length
      then selected_loop rest max_total_length min_clip_length max_clip_length selected total
      else
        match (if Qltb max_clip_length duration0
               then exc_map (fun s => (Cut s, max_clip_length)) (subclip_of c 0 max_clip_length)
               else inr (Full c, duration0)) with
        | inl e => inl e
        | inr (cutted, duration1) =>
            if Qltb max_total_length (total + duration1)
            then
              let remaining := max_total_length - total in
              if Qleb min_clip_length remaining
              then
                partial <-? subclip_of c 0 remaining ;;
                inr (selected ++ [Cut partial], total + duration1)
              else inr (selected, total)
            else
              selected_loop rest max_total_length min_clip_length max_clip_length
                (selected ++ [cutted]) (total + duration1)
        end
  end.

Definition selected_by_duration (clips : list clip)
    (max_total_length min_clip_length max_clip_length : Q) : exn + list vclip :=
  exc_map fst (selected_loop clips max_total_length min_clip_length max_clip_length [] 0).

(** The total printed as ["Total Duration"]. *)
Definition selected_total (clips : list clip)
    (max_total_length min_clip_length max_clip_length : Q) : exn + Q :=
  exc_map snd (selected_loop clips max_total_length min_clip_length max_clip_length [] 0).

Definition sum_vdurations (l : list vclip) : Q :=
  fold_left (fun acc v => acc + vclip_duration v) l 0.

(** Closing a clip or one of its sub-clips releases the clip's decoder. *)
Definition close_vclip (v : vclip) : M unit := emit (EClose (HClip (clip_id (vclip_source v)))).

Definition concat_and_export (env : media_env) (clips : list vclip) (export_path : string) : M unit :=
  try_finally
    (match clips with
     | [] => raise (ValueError "No clips selected.")
     | _ :: _ =>
         emit (EOpen HFinal) ;;;
         write_videofile env export_path ;;;
         emit (EClose HFinal)
     end)
    (for_each close_vclip clips).

Definition build_travel_summary (env : media_env) (video_folder : directory) (export_path : string)
    (max_total_length min_clip_length max_clip_length : Q) : M unit :=
  match available_vids video_folder with
  | [] => raise (ValueError "No videos found in the given folder.")
  | _ :: _ =>
      clips <- load_and_normalize_vids env video_folder ;;
      selected <- of_exc (selected_by_duration clips max_total_length min_clip_length max_clip_length) ;;
      concat_and_export env selected export_path
  end.

End VideoProcessor.

(** ** Motion Scorer: [motion_score_for_segment] *)

(** [np.linspace(start, stop, num)] (both ends included). *)
Definition linspace_closed (start stop : Q) (num : nat) : list Q :=
  match num with
  | O => []
  | S O => [start]
  | S k => map (fun i => start + inject_Z (Z.of_nat i) * ((stop - start) / inject_Z (Z.of_nat k)))
               (seq 0 num)
  end.

(** A frame: one list of channel values per pixel, its pixels in row order
    (all frames of a clip have the same shape). *)
Definition frame : Type := list (list Q).

Section MotionScorer.

Variable get_frame : Q -> frame.   (* [clip.get_frame(t)] *)

(** The loop over [times] with its variables [prev_frame] and [diffs]. *)
Fixpoint motion_loop (times : list Q) (prev_frame : option (list Q)) (diffs : list Q) : list Q :=
  match times with
  | [] => diffs
  | t :: ts =>
      let gray := map mean (get_frame t) in
      let diffs' :=
        match prev_frame with
        | Some prev => diffs ++ [mean (map (fun '(x, y) => Qabs (x - y)) (combine gray prev))]
        | None => diffs
        end in
      motion_loop ts (Some gray) diffs'
  end.

Definition motion_score_for_segment (t_start t_end : Q) (n_samples : nat) : Q :=
  let diffs := motion_loop (linspace_closed t_start t_end n_samples) None [] in
  match diffs with
  | [] => 0
  | _ :: _ => mean diffs
  end.

End MotionScorer.

(** ** Segment Scorer: [segment_score] *)

Definition segment_score
    (get_frame : clip -> Q -> frame)
    (audio : Type) (clip_audio : clip -> option audio)
    (audio_subclip : audio -> Q -> Q -> exn + audio) (audio_duration : audio -> option Q)
    (to_soundarray : audio -> list Q -> Z -> exn + sound_array) (sqrt : Q -> Q)
    (c : clip) (t_start t_end w_motion w_audio : Q) : exn + Q :=
  let m := motion_score_for_segment (get_frame c) t_start t_end 5 in
  a <-? fst (audio_energy_for_segment audio clip_audio audio_subclip audio_duration
               to_soundarray sqrt c t_start t_end) ;;
  inr (w_motion * m + w_audio * a).

(** [l1] keeps some of the elements of [l2], in the same order. *)
Inductive sublist {A : Type} : list A -> list A -> Prop :=
| sublist_nil : sublist [] []
| sublist_skip x l1 l2 : sublist l1 l2 -> sublist l1 (x :: l2)
| sublist_keep x l1 l2 : sublist l1 l2 -> sublist (x :: l1) (x :: l2).

(** An extract of [selected_by_duration] that starts at 0, lasts between
    the two bounds and fits in its clip. *)
Definition good_extract (min_clip_length max_clip_length : Q) (v : VideoProcessor.vclip) : Prop :=
  VideoProcessor.vclip_start v = 0 /\
  min_clip_length <= VideoProcessor.vclip_duration v <= max_clip_length /\
  VideoProcessor.vclip_duration v <= duration (VideoProcessor.vclip_source v).

(** Whether handle [h] is open after the events [tr], given that [P] says
    whether it was open before them. *)
Fixpoint still_open (h : handle) (P : Prop) (tr : list event) : Prop :=
  match tr with
  | [] => P
  | EOpen h' :: t => still_open h (h = h' \/ P) t
  | EClose h' :: t => still_open h (h <> h' /\ P) t
  | EWrite _ :: t => still_open h P t
  end.

(** Concrete inputs of the pipeline. *)
Definition env_example : media_env :=
  mk_env (fun _ => 10) (fun _ a b => b - a) (fun _ => true) true true.

Definition dir_without_videos : directory :=
  mk_directory "videos" [mk_entry "notes.txt" true; mk_entry "trip.mp4" false;
                         mk_entry ".mov" true; mk_entry "clip.MP4" true].

(** Video durations: [a.mp4] lasts 10 s, any other file 0.5 s. *)
Definition env_durations (write_ok : bool) : media_env :=
  mk_env (fun name => if String.eqb name "a.mp4" then 10 else 1#2)
         (fun _ a b => b - a) (fun _ => false) true write_ok.

Definition dir_ab : directory :=
  mk_directory "videos" [mk_entry "a.mp4" true; mk_entry "b.mp4" true].

Definition dir_b : directory := mk_directory "videos" [mk_entry "b.mp4" true].

Definition dir_a : directory := mk_directory "videos" [mk_entry "a.mp4" true].

(** ** Lemmas on comparisons *)

Lemma Qltb_iff x y : Qltb x y = true <-> x < y.
Proof.
  unfold Qltb. rewrite negb_true_iff. split; intro H.
  - apply Qnot_le_lt. intro H'. apply Qle_bool_iff in H'. congruence.
  - destruct (Qle_bool y x) eqn:E; auto. apply Qle_bool_iff in E. lra.
Qed.

Lemma Qltb_false x y : Qltb x y = false <-> y <= x.
Proof.
  unfold Qltb. rewrite negb_false_iff. apply Qle_bool_iff.
Qed.

Lemma Qleb_iff x y : Qleb x y = true <-> x <= y.
Proof. apply Qle_bool_iff. Qed.

Lemma Qleb_false x y : Qleb x y = false <-> y < x.
Proof.
  unfold Qleb. split; intro H.
  - apply Qnot_le_lt. intro H'. apply Qle_bool_iff in H'. congruence.
  - destruct (Qle_bool x y) eqn:E; auto. apply Qle_bool_iff in E. lra.
Qed.

Ltac qcase :=
  repeat match goal with
  | H : Qltb _ _ = true |- _ => apply Qltb_iff in H
  | H : Qltb _ _ = false |- _ => apply Qltb_false in H
  | H : Qleb _ _ = true |- _ => apply Qleb_iff in H
  | H : Qleb _ _ = false |- _ => apply Qleb_false in H
  end.

Lemma py_min_le_l a b : py_min a b <= a.
Proof. unfold py_min. destruct (Qltb b a) eqn:E; qcase; lra. Qed.

Lemma py_min_le_r a b : py_min a b <= b.
Proof. unfold py_min. destruct (Qltb b a) eqn:E; qcase; lra. Qed.

Lemma py_min_cases a b : (py_min a b = a /\ a <= b) \/ (py_min a b = b /\ b < a).
Proof. unfold py_min. destruct (Qltb b a) eqn:E; qcase; auto. Qed.


Lemma nat_Q_succ (j : nat) : inject_Z (Z.of_nat (S j)) == inject_Z (Z.of_nat j) + 1.
Proof. rewrite Nat2Z.inj_succ, <- Z.add_1_r, inject_Z_plus. reflexivity. Qed.

Lemma nat_Q_nonneg (j : nat) : 0 <= inject_Z (Z.of_nat j).
Proof. change 0 with (inject_Z 0). rewrite <- Zle_Qle. lia. Qed.

(** ** The splitter loop *)

Section SplitLoop.

Variables D L : Q.

Lemma split_step_t s : sp_t (split_step D L s) = py_min (sp_t s + L) D.
Proof. reflexivity. Qed.

Lemma split_loop_more_fuel f k s r :
  split_loop f D L s = Some r -> split_loop (f + k) D L s = Some r.
Proof.
  revert s. induction f as [|f IH]; intros s H; [discriminate|].
  simpl in *. destruct (Qltb (sp_t s) D); auto.
Qed.

(** A positive step: [n] more iterations reach [D] when [D - t <= n * L]. *)
Lemma split_loop_enough (HL : 0 < L) n s :
  D - sp_t s <= inject_Z (Z.of_nat n) * L -> split_loop (S n) D L s <> None.
Proof.
  revert s. induction n as [|n IH]; intros s H.
  - simpl. destruct (Qltb (sp_t s) D) eqn:E; [|discriminate].
    qcase. change (inject_Z (Z.of_nat 0)) with 0 in H.
    rewrite Qmult_0_l in H. lra.
  - change (split_loop (S (S n)) D L s)
      with (if Qltb (sp_t s) D then split_loop (S n) D L (split_step D L s)
            else Some (sp_segments s)).
    destruct (Qltb (sp_t s) D) eqn:E; [|discriminate].
    apply IH. rewrite split_step_t.
    rewrite nat_Q_succ in H. pose proof (nat_Q_nonneg n) as Hn.
    assert (0 <= inject_Z (Z.of_nat n) * L) by (apply Qmult_le_0_compat; lra).
    destruct (py_min_cases (sp_t s + L) D) as [[-> _]|[-> _]]; lra.
Qed.

(** A non-positive step never leaves the loop. *)
Lemma split_loop_hangs (HL : L <= 0) f s :
  sp_t s < D -> split_loop f D L s = None.
Proof.
  revert s. induction f as [|f IH]; intros s H; [reflexivity|].
  simpl. destruct (Qltb (sp_t s) D) eqn:E.
  - apply IH. rewrite split_step_t.
    pose proof (py_min_le_l (sp_t s + L) D). lra.
  - qcase. lra.
Qed.

Lemma split_loop_good (HL : 0 <= L) f s r :
  split_loop f D L s = Some r -> 0 <= sp_t s -> Forall (good_window D) (sp_segments s) ->
  Forall (good_window D) r.
Proof.
  revert s. induction f as [|f IH]; intros s H H0 HF; [discriminate|].
  simpl in H. destruct (Qltb (sp_t s) D) eqn:E.
  - qcase. apply (IH _ H).
    + rewrite split_step_t.
      destruct (py_min_cases (sp_t s + L) D) as [[-> _]|[-> _]]; lra.
    + unfold split_step; simpl. destruct (Qleb 1 _) eqn:E1; auto.
      qcase. apply Forall_app. split; auto. constructor; [|constructor].
      unfold good_window; simpl. pose proof (py_min_le_r (sp_t s + L) D). lra.
  - injection H as <-. exact HF.
Qed.

(** With a step shorter than 1 no window is ever kept. *)
Lemma split_loop_short (HL : L < 1) f s r :
  split_loop f D L s = Some r -> sp_segments s = [] -> r = [].
Proof.
  revert s. induction f as [|f IH]; intros s H H0; [discriminate|].
  simpl in H. destruct (Qltb (sp_t s) D) eqn:E.
  - apply (IH _ H). unfold split_step; simpl.
    destruct (Qleb 1 _) eqn:E1; auto.
    qcase. pose proof (py_min_le_l (sp_t s + L) D). lra.
  - injection H as <-. exact H0.
Qed.

Lemma nth_snoc (l : list window) x k :
  nth k (l ++ [x]) (0, 0) = if Nat.ltb k (List.length l) then nth k l (0, 0) else
                            if Nat.eqb k (List.length l) then x else (0, 0).
Proof.
  destruct (Nat.ltb k (List.length l)) eqn:E.
  - apply Nat.ltb_lt in E. apply app_nth1; auto.
  - apply Nat.ltb_ge in E. rewrite app_nth2 by auto.
    destruct (Nat.eqb k (List.length l)) eqn:E2.
    + apply Nat.eqb_eq in E2. subst. rewrite Nat.sub_diag. reflexivity.
    + apply Nat.eqb_neq in E2. destruct (k - List.length l)%nat eqn:E3; [lia|].
      destruct n; reflexivity.
Qed.

Lemma split_loop_covers (HL : 1 <= L) f s r :
  split_loop f D L s = Some r -> split_inv D L s -> covers_in_steps D L r.
Proof.
  revert s. induction f as [|f IH]; intros s H HI; [discriminate|].
  simpl in H. destruct (Qltb (sp_t s) D) eqn:E.
  - qcase. apply (IH _ H).
    destruct HI as [(Ht & HjD & Hk)|[HD _]]; [|lra].
    set (j := List.length (sp_segments s)) in *.
    set (t := sp_t s) in *.
    pose proof (nat_Q_succ j) as Hs.
    assert (HsL : inject_Z (Z.of_nat (S j)) * L == inject_Z (Z.of_nat j) * L + L)
      by (rewrite Hs; ring).
    unfold split_step, split_inv; cbn [sp_t sp_segments]. fold t.
    assert (Hwin : forall x, x == py_min (inject_Z (Z.of_nat (S j)) * L) D ->
              forall k, (k < S j)%nat ->
              win_eq (nth k (sp_segments s ++ [(t, x)]) (0, 0)) (ideal_window D L k)).
    { intros x Hx k Hkj. rewrite nth_snoc. fold j.
      destruct (Nat.ltb k j) eqn:E1; [apply Nat.ltb_lt in E1; auto|].
      apply Nat.ltb_ge in E1. replace (Nat.eqb k j) with true
        by (symmetry; apply Nat.eqb_eq; lia).
      assert (k = j) by lia. subst k. split; simpl; [lra|exact Hx]. }
    destruct (py_min_cases (t + L) D) as [[Hm Hle]|[Hm Hlt]]; rewrite Hm.
    + (* a whole window of length L *)
      replace (Qleb 1 (t + L - t)) with true by (symmetry; apply Qleb_iff; lra).
      left. rewrite length_app; cbn [List.length]. rewrite Nat.add_1_r. fold j.
      split; [lra|]. split; [lra|].
      apply Hwin.
      destruct (py_min_cases (inject_Z (Z.of_nat (S j)) * L) D) as [[-> _]|[-> H2]];
        lra.
    + (* the last window, cut at D *)
      right. split; [lra|].
      destruct (Qleb 1 (D - t)) eqn:E1; qcase.
      * split.
        -- rewrite length_app; cbn [List.length]. rewrite Nat.add_1_r. fold j. apply Hwin.
           destruct (py_min_cases (inject_Z (Z.of_nat (S j)) * L) D) as [[-> H2]|[-> _]];
             lra.
        -- left. rewrite length_app; cbn [List.length]. rewrite Nat.add_1_r. fold j. lra.
      * split; [exact Hk|]. right. fold j. lra.
  - injection H as <-. qcase.
    destruct HI as [(Ht & HjD & Hk)|[_ Hc]]; [|exact Hc].
    split; [exact Hk|]. left. lra.
Qed.

End SplitLoop.

Lemma split_in_segments_terminates D L :
  0 < L -> split_in_segments D L <> None.
Proof.
  intro HL. unfold split_in_segments, split_fuel.
  replace (Qltb 0 L) with true by (symmetry; apply Qltb_iff; exact HL).
  apply split_loop_enough; [exact HL|]. simpl.
  set (c := Qceiling (D / L)).
  assert (Hc : D / L <= inject_Z c) by apply Qle_ceiling.
  assert (Hz : inject_Z c <= inject_Z (Z.of_nat (Z.to_nat c))).
  { rewrite <- Zle_Qle. lia. }
  assert (HD : D == D / L * L) by (field; lra).
  assert (D / L * L <= inject_Z (Z.of_nat (Z.to_nat c)) * L).
  { apply Qmult_le_compat_r; lra. }
  lra.
Qed.

Lemma split_in_segments_nonpos D L :
  D <= 0 -> split_in_segments D L = Some [].
Proof.
  intro HD. unfold split_in_segments.
  destruct (split_fuel D L) eqn:E.
  - unfold split_fuel in E. destruct (Qltb 0 L); discriminate.
  - simpl. replace (Qltb 0 D) with false by (symmetry; apply Qltb_false; exact HD).
    reflexivity.
Qed.

(** ** The packing loop *)

Lemma subclip_of_plain c a b :
  0 <= a -> a <= duration c -> 0 <= b -> subclip_of c a b = inr (mk_subclip c a b).
Proof.
  intros H0 H1 H2. unfold subclip_of.
  replace (Qltb a 0) with false by (symmetry; apply Qltb_false; exact H0).
  replace (Qltb (duration c) a) with false by (symmetry; apply Qltb_false; exact H1).
  replace (Qltb b 0) with false by (symmetry; apply Qltb_false; exact H2).
  reflexivity.
Qed.

Section Packing.

Variables max_total_duration min_segment_duration : Q.

Lemma arrange_loop_packs segments selected total :
  Forall seg_in_clip segments ->
  (0 <= min_segment_duration \/ total <= max_total_duration) ->
  exists out total', arrange_loop segments max_total_duration min_segment_duration selected total
                     = inr (selected ++ out, total') /\
    packs segments max_total_duration min_segment_duration total out.
Proof.
  revert selected total.
  induction segments as [|seg rest IH]; intros selected total Hsegs Hroom.
  - exists [], total. split; [simpl; rewrite app_nil_r; reflexivity|].
    exists O, []. simpl. repeat split; auto; intros; lia.
  - apply Forall_cons_iff in Hsegs as [(Hs0 & Hs1 & He0) Hrest].
    cbn [arrange_loop]. unfold packs, kept_segments. cbn [filter].
    fold (seg_dur seg).
    destruct (Qltb (seg_dur seg) min_segment_duration) eqn:Eskip; cbn [negb].
    + apply IH; assumption.
    + destruct (Qltb max_total_duration (total + seg_dur seg)) eqn:Eover.
      * destruct (Qleb min_segment_duration (max_total_duration - total)) eqn:Efit.
        -- assert (Hrem : 0 <= max_total_duration - total).
           { apply Qleb_iff in Efit. destruct Hroom; lra. }
           rewrite subclip_of_plain by lra. cbn [exc_bind].
           exists [truncated seg (max_total_duration - total)], (total + (max_total_duration - total)).
           split; [reflexivity|].
           exists O, [truncated seg (max_total_duration - total)].
           cbn [firstn map app List.length]. unfold running_total; cbn [fold_left].
           repeat split; [lia|intros; lia|].
           right. exists seg. rewrite Efit. qcase. repeat split; auto.
        -- exists [], total. split; [rewrite app_nil_r; reflexivity|].
           exists O, []. cbn [firstn map app List.length]. unfold running_total; cbn [fold_left].
           repeat split; [lia|intros; lia|].
           right. exists seg. rewrite Efit. qcase. repeat split; auto.
      * qcase. rewrite subclip_of_plain by lra. cbn [exc_bind].
        destruct (IH (selected ++ [whole seg]) (total + seg_dur seg) Hrest (or_intror Eover))
          as (out & t' & Hout & k & tail & Hk & Heq & Hfit & Hlast).
        exists (whole seg :: out), t'. split.
        { unfold whole in Hout. rewrite Hout, <- app_assoc. reflexivity. }
        exists (S k), tail. cbn [firstn map List.length].
        fold (kept_segments rest min_segment_duration) in *.
        repeat split.
        -- lia.
        -- rewrite Heq. reflexivity.
        -- intros [|j] Hj; cbn [firstn running_total fold_left].
           ++ unfold running_total; simpl. lra.
           ++ apply Hfit. lia.
        -- destruct Hlast as [[-> ->]|(s & Hs & Ho & Ht)]; [left; auto|right].
           exists s. repeat split; auto.
Qed.

Lemma sum_durations_snoc l x : sum_durations (l ++ [x]) = sum_durations l + sub_duration x.
Proof. unfold sum_durations. rewrite fold_left_app. reflexivity. Qed.

Lemma arrange_loop_total segments selected total :
  Forall seg_in_clip segments ->
  sum_durations selected == total ->
  (0 <= min_segment_duration \/ total <= max_total_duration) ->
  exists r, arrange_loop segments max_total_duration min_segment_duration selected total = inr r /\
    sum_durations (fst r) == snd r /\ (total <= max_total_duration -> snd r <= max_total_duration).
Proof.
  revert selected total.
  induction segments as [|seg rest IH]; intros selected total Hsegs Hsum Hroom.
  - exists (selected, total). simpl. auto.
  - apply Forall_cons_iff in Hsegs as [(Hs0 & Hs1 & He0) Hrest].
    cbn [arrange_loop].
    destruct (Qltb (t_end seg - t_start seg) min_segment_duration); [apply IH; auto|].
    destruct (Qltb max_total_duration (total + (t_end seg - t_start seg))) eqn:Eover.
    + destruct (Qleb min_segment_duration (max_total_duration - total)) eqn:Efit.
      * assert (Hrem : 0 <= max_total_duration - total).
        { apply Qleb_iff in Efit. destruct Hroom; lra. }
        rewrite subclip_of_plain by lra. cbn [exc_bind].
        eexists; split; [reflexivity|]. cbn [fst snd].
        rewrite sum_durations_snoc. unfold sub_duration; cbn [sub_start sub_end].
        split; [lra|intro; lra].
      * eexists; split; [reflexivity|]. cbn [fst snd]. split; [exact Hsum|auto].
    + qcase. rewrite subclip_of_plain by lra. cbn [exc_bind].
      destruct (IH (selected ++ [mk_subclip (seg_clip seg) (t_start seg) (t_end seg)])
                  (total + (t_end seg - t_start seg)) Hrest) as (r & Hr & Hs & Hb).
      * rewrite sum_durations_snoc. unfold sub_duration; cbn [sub_start sub_end]. lra.
      * right. exact Eover.
      * exists r. split; [exact Hr|]. split; [exact Hs|]. intros _. apply Hb. exact Eover.
Qed.

End Packing.

Lemma subclip_of_related c1 c2 a b :
  duration c1 = duration c2 ->
  exc_map sub_window (subclip_of c1 a b) = exc_map sub_window (subclip_of c2 a b).
Proof.
  intro H. unfold subclip_of. rewrite H.
  destruct (Qltb a 0); destruct (Qltb (duration c2) _); reflexivity.
Qed.

(** Packing looks at the windows of the segments and the durations of
    their clips only. *)
Lemma arrange_loop_windows mx mn l1 l2 sel1 sel2 total :
  map seg_window l1 = map seg_window l2 ->
  map seg_clip_duration l1 = map seg_clip_duration l2 ->
  map sub_window sel1 = map sub_window sel2 ->
  exc_map (fun r => (map sub_window (fst r), snd r)) (arrange_loop l1 mx mn sel1 total) =
  exc_map (fun r => (map sub_window (fst r), snd r)) (arrange_loop l2 mx mn sel2 total).
Proof.
  revert l2 sel1 sel2 total.
  induction l1 as [|s1 r1 IH]; intros [|s2 r2] sel1 sel2 total Hl Hd Hs; try discriminate.
  - simpl. rewrite Hs. reflexivity.
  - injection Hl as Hi Ha Hb Hr. injection Hd as Hd Hrd.
    cbn [arrange_loop]. rewrite Ha, Hb.
    destruct (Qltb (t_end s2 - t_start s2) mn); [apply IH; auto|].
    destruct (Qltb mx (total + (t_end s2 - t_start s2))).
    + destruct (Qleb mn (mx - total)); [|simpl; rewrite Hs; reflexivity].
      pose proof (subclip_of_related (seg_clip s1) (seg_clip s2) (t_start s2)
                    (t_start s2 + (mx - total)) Hd) as Hw.
      destruct (subclip_of (seg_clip s1) _ _) as [e1|x1];
        destruct (subclip_of (seg_clip s2) _ _) as [e2|x2]; cbn [exc_map exc_bind] in *;
        try discriminate; [congruence|].
      assert (Hw' : sub_window x1 = sub_window x2) by congruence.
      cbn [fst snd]. rewrite !map_app, Hs. cbn [map]. rewrite Hw'. reflexivity.
    + pose proof (subclip_of_related (seg_clip s1) (seg_clip s2) (t_start s2) (t_end s2) Hd) as Hw.
      destruct (subclip_of (seg_clip s1) _ _) as [e1|x1];
        destruct (subclip_of (seg_clip s2) _ _) as [e2|x2]; cbn [exc_map exc_bind] in *;
        try discriminate; [congruence|].
      assert (Hw' : sub_window x1 = sub_window x2) by congruence.
      apply IH; auto. rewrite !map_app, Hs. cbn [map]. rewrite Hw'. reflexivity.
Qed.

(** ** The selection loops *)

Section Selection.

Variable segment_score : clip -> Q -> Q -> Q.

Let wscore (c : clip) : window -> Q := fun w => segment_score c (fst w) (snd w).

(** From a current best [b], the scan keeps [b] or moves to a strictly
    better window, the earliest of maximal score. *)
Lemma best_loop_from c idx ws b r :
  best_loop segment_score c idx ws (Some b) (Some (score b)) = Some r ->
  (r = b /\ Forall (fun w => wscore c w <= score b) ws) \/
  (score b < score r /\ seg_clip r = c /\ clip_index r = idx /\
   score r = segment_score c (t_start r) (t_end r) /\
   earliest_max (wscore c) ws (t_start r, t_end r)).
Proof.
  revert b. induction ws as [|[ts te] rest IH]; intros b H.
  - injection H as <-. left. auto.
  - cbn [best_loop gt_best] in H.
    destruct (Qltb (score b) (segment_score c ts te)) eqn:E; qcase.
    + destruct (IH _ H) as [[-> Hall]|(Hlt & Hc & Hi & Hs & pre & post & Hws & Hpre & Hpost)];
        cbn [score seg_clip clip_index t_start t_end] in *.
      * right. repeat split; auto.
        exists [], rest. repeat split; auto.
      * right. repeat split; auto; [lra|].
        exists ((ts, te) :: pre), post. rewrite Hws.
        repeat split; auto. constructor; auto. unfold wscore; cbn [fst snd]. rewrite <- Hs. lra.
    + destruct (IH _ H) as [[-> Hall]|(Hlt & Hc & Hi & Hs & pre & post & Hws & Hpre & Hpost)].
      * left. split; [reflexivity|constructor; [exact E|exact Hall]].
      * right. repeat split; auto.
        exists ((ts, te) :: pre), post. rewrite Hws.
        repeat split; auto. constructor; auto. unfold wscore; cbn [fst snd]. rewrite <- Hs. lra.
Qed.

(** From [best_score = -inf]: no window, no segment; otherwise the
    earliest window of maximal score. *)
Lemma best_loop_start c idx ws :
  match best_loop segment_score c idx ws None None with
  | None => ws = []
  | Some r => seg_clip r = c /\ clip_index r = idx /\
              score r = segment_score c (t_start r) (t_end r) /\
              earliest_max (wscore c) ws (t_start r, t_end r)
  end.
Proof.
  destruct ws as [|[ts te] rest]; [reflexivity|].
  cbn [best_loop gt_best].
  destruct (best_loop segment_score c idx rest
              (Some (mk_Segment c ts te (segment_score c ts te) idx))
              (Some (segment_score c ts te))) as [r|] eqn:E.
  - destruct (best_loop_from c idx rest _ r E)
      as [[-> Hall]|(Hlt & Hc & Hi & Hs & pre & post & Hws & Hpre & Hpost)].
    + simpl. repeat split; auto. exists [], rest. repeat split; auto.
    + repeat split; auto.
      exists ((ts, te) :: pre), post. rewrite Hws. simpl in Hlt.
      repeat split; auto. constructor; auto. unfold wscore; cbn [fst snd]. rewrite <- Hs. lra.
  - exfalso. destruct rest as [|[a b] rest]; [discriminate|].
    cbn [best_loop gt_best] in E.
    revert E. generalize (mk_Segment c ts te (segment_score c ts te) idx).
    generalize (segment_score c ts te). revert a b.
    induction rest as [|[a' b'] rest IH]; intros a b q s0 E; simpl in E;
      destruct (Qltb q (segment_score c a b)); try discriminate; eapply IH; exact E.
Qed.

Lemma extract_loop_picks L idx cs acc segs :
  extract_loop segment_score idx cs L acc = Some segs ->
  segs = acc ++ picks segment_score L idx cs.
Proof.
  revert idx acc. induction cs as [|c cs IH]; intros idx acc H.
  - injection H as <-. simpl. rewrite app_nil_r. reflexivity.
  - simpl in H |- *. unfold clip_pick.
    destruct (split_in_segments (duration c) L) as [ws|]; [|discriminate].
    rewrite (IH _ _ H).
    destruct (best_loop segment_score c idx ws None None); simpl;
      [rewrite <- app_assoc|]; reflexivity.
Qed.

Lemma clip_pick_index L idx c s :
  In s (clip_pick segment_score L idx c) -> clip_index s = idx /\ seg_clip s = c.
Proof.
  unfold clip_pick. destruct (split_in_segments (duration c) L) as [ws|]; [|intros []].
  pose proof (best_loop_start c idx ws) as Hb.
  destruct (best_loop segment_score c idx ws None None) as [r|]; [|intros []].
  intros [<-|[]]. tauto.
Qed.

Lemma picks_index L idx cs s :
  In s (picks segment_score L idx cs) ->
  (idx <= clip_index s < idx + List.length cs)%nat /\
  nth_error cs (clip_index s - idx) = Some (seg_clip s) /\
  In s (clip_pick segment_score L (clip_index s) (seg_clip s)).
Proof.
  revert idx. induction cs as [|c cs IH]; intros idx H; [destruct H|].
  simpl in H. apply in_app_or in H as [H|H].
  - destruct (clip_pick_index _ _ _ _ H) as [Hi Hc]. rewrite Hi, Hc.
    simpl. rewrite Nat.sub_diag. repeat split; auto; lia.
  - destruct (IH _ H) as (Hr & Hn & Hp). simpl.
    replace (clip_index s - idx)%nat with (S (clip_index s - S idx)) by lia.
    repeat split; auto; lia.
Qed.

Lemma picks_sorted L idx cs :
  StronglySorted lt (map clip_index (picks segment_score L idx cs)).
Proof.
  revert idx. induction cs as [|c cs IH]; intros idx; [constructor|].
  simpl. unfold clip_pick.
  destruct (split_in_segments (duration c) L) as [ws|]; [|apply IH].
  pose proof (best_loop_start c idx ws) as Hb.
  destruct (best_loop segment_score c idx ws None None) as [r|]; [|apply IH].
  simpl. constructor; [apply IH|].
  apply Forall_forall. intros i Hi. apply in_map_iff in Hi as (s & <- & Hs).
  destruct (picks_index _ _ _ _ Hs). destruct Hb as (_ & -> & _). lia.
Qed.

(** The segments of the [j]-th clip are exactly what that clip contributes. *)
Lemma picks_filter L idx cs j c :
  nth_error cs j = Some c ->
  filter (fun s => Nat.eqb (clip_index s) (idx + j)) (picks segment_score L idx cs)
  = clip_pick segment_score L (idx + j) c.
Proof.
  revert idx j. induction cs as [|c' cs IH]; intros idx j Hj; [destruct j; discriminate|].
  simpl. rewrite filter_app.
  destruct j as [|j].
  - injection Hj as ->. rewrite Nat.add_0_r.
    rewrite forallb_filter_id.
    + rewrite (filter_ext_in _ (fun _ => false)), filter_false, app_nil_r.
      * reflexivity.
      * intros s Hs. destruct (picks_index _ _ _ _ Hs). apply Nat.eqb_neq. lia.
    + apply forallb_forall. intros s Hs.
      destruct (clip_pick_index _ _ _ _ Hs). apply Nat.eqb_eq. lia.
  - replace (idx + S j)%nat with (S idx + j)%nat by lia.
    rewrite (IH _ _ Hj).
    rewrite (filter_ext_in _ (fun _ => false)), filter_false; [reflexivity|].
    intros s Hs. destruct (clip_pick_index _ _ _ _ Hs). apply Nat.eqb_neq. lia.
Qed.

End Selection.

(** Selection looks at the durations of the clips and the scores of their
    windows only. *)
Lemma best_loop_related sc1 sc2 c1 c2 idx ws b1 b2 bs :
  (forall a b, sc1 c1 a b = sc2 c2 a b) ->
  option_map seg_window b1 = option_map seg_window b2 ->
  option_map seg_window (best_loop sc1 c1 idx ws b1 bs) =
  option_map seg_window (best_loop sc2 c2 idx ws b2 bs).
Proof.
  intros Hsc. revert b1 b2 bs.
  induction ws as [|[ts te] rest IH]; intros b1 b2 bs Hb; [exact Hb|].
  cbn [best_loop]. rewrite Hsc.
  destruct (gt_best (sc2 c2 ts te) bs); apply IH; [reflexivity|exact Hb].
Qed.

Lemma extract_loop_related sc1 sc2 cs1 cs2 L idx acc1 acc2 :
  Forall2 (fun c1 c2 => duration c1 = duration c2 /\ forall a b, sc1 c1 a b = sc2 c2 a b) cs1 cs2 ->
  map seg_window acc1 = map seg_window acc2 ->
  option_map (map seg_window) (extract_loop sc1 idx cs1 L acc1) =
  option_map (map seg_window) (extract_loop sc2 idx cs2 L acc2).
Proof.
  intros Hrel. revert idx acc1 acc2.
  induction Hrel as [|c1 c2 cs1 cs2 [Hd Hsc] Hrel IH]; intros idx acc1 acc2 Hacc.
  - simpl. rewrite Hacc. reflexivity.
  - cbn [extract_loop]. rewrite Hd.
    destruct (split_in_segments (duration c2) L) as [ws|]; [|reflexivity].
    pose proof (best_loop_related sc1 sc2 c1 c2 idx ws None None None Hsc eq_refl) as Hb.
    destruct (best_loop sc1 c1 idx ws None None) as [r1|];
      destruct (best_loop sc2 c2 idx ws None None) as [r2|]; try discriminate;
      apply IH; [|exact Hacc].
    assert (Hw : seg_window r1 = seg_window r2) by (simpl in Hb; congruence).
    rewrite !map_app, Hacc. cbn [map]. rewrite Hw. reflexivity.
Qed.

Lemma best_loop_clip sc c idx ws b bs x :
  (forall y, b = Some y -> seg_clip y = c) ->
  best_loop sc c idx ws b bs = Some x -> seg_clip x = c.
Proof.
  revert b bs. induction ws as [|[ts te] ws IH]; intros b bs Hb H; cbn [best_loop] in H.
  - exact (Hb x H).
  - destruct (gt_best (sc c ts te) bs); (eapply IH; [|exact H]).
    + intros y Hy. injection Hy as <-. reflexivity.
    + exact Hb.
Qed.

Lemma extract_loop_durations sc1 sc2 cs1 cs2 L idx acc1 acc2 :
  Forall2 (fun c1 c2 => duration c1 = duration c2 /\ forall a b, sc1 c1 a b = sc2 c2 a b) cs1 cs2 ->
  map seg_clip_duration acc1 = map seg_clip_duration acc2 ->
  option_map (map seg_clip_duration) (extract_loop sc1 idx cs1 L acc1) =
  option_map (map seg_clip_duration) (extract_loop sc2 idx cs2 L acc2).
Proof.
  intros Hrel. revert idx acc1 acc2.
  induction Hrel as [|c1 c2 cs1 cs2 [Hd Hsc] Hrel IH]; intros idx acc1 acc2 Hacc.
  - simpl. rewrite Hacc. reflexivity.
  - cbn [extract_loop]. rewrite Hd.
    destruct (split_in_segments (duration c2) L) as [ws|]; [|reflexivity].
    pose proof (best_loop_related sc1 sc2 c1 c2 idx ws None None None Hsc eq_refl) as Hb.
    destruct (best_loop sc1 c1 idx ws None None) as [r1|] eqn:E1;
      destruct (best_loop sc2 c2 idx ws None None) as [r2|] eqn:E2; try discriminate;
      apply IH; [|exact Hacc].
    apply best_loop_clip in E1; [|discriminate]. apply best_loop_clip in E2; [|discriminate].
    rewrite !map_app, Hacc. cbn [map]. unfold seg_clip_duration at 2 4. rewrite E1, E2, Hd.
    reflexivity.
Qed.

(** * The claims *)

(** ** Budget Packer *)

(** C1 (amended).  On segments whose windows start within their clip
    and do not end before 0 (as the windows of [split_in_segments] do),
    with a budget [max_total_duration >= 0], [arrange_best_segments]
    returns (it does not raise) extracts whose durations sum to at most
    [max_total_duration]; it keeps the segments of duration
    [>= min_segment_duration] in order, takes them whole while they fit,
    and at the first one that overflows appends the extract of exactly
    [remaining] from its [t_start] when [remaining >= min_segment_duration],
    or nothing, and stops there. *)
Theorem arrange_best_segments_budget (segments : list Segment) (max_total_duration min_segment_duration : Q)
    (Hsegs : Forall seg_in_clip segments) (Hmax : 0 <= max_total_duration) :
  exists out, arrange_best_segments segments max_total_duration min_segment_duration = inr out /\
    sum_durations out <= max_total_duration /\
    packs segments max_total_duration min_segment_duration 0 out.
Proof.
  destruct (arrange_loop_packs max_total_duration min_segment_duration segments [] 0 Hsegs
              (or_intror Hmax)) as (out & t' & Hout & Hp).
  destruct (arrange_loop_total max_total_duration min_segment_duration segments [] 0 Hsegs
              (Qeq_refl 0) (or_intror Hmax)) as (r & Hr & Hs & Hb).
  rewrite Hout in Hr. injection Hr as <-. cbn [fst snd app] in *.
  exists out. unfold arrange_best_segments. rewrite Hout. cbn [exc_map fst app].
  split; [reflexivity|]. split; [|exact Hp].
  specialize (Hb Hmax). lra.
Qed.

Lemma arrange_best_segments_budget_witness :
  Forall seg_in_clip [mk_Segment (mk_clip 0 10) 0 6 1 0; mk_Segment (mk_clip 1 8) 2 8 1 1] /\
  0 <= 10 /\
  arrange_best_segments [mk_Segment (mk_clip 0 10) 0 6 1 0; mk_Segment (mk_clip 1 8) 2 8 1 1] 10 (3#2)
    = inr [mk_subclip (mk_clip 0 10) 0 6; mk_subclip (mk_clip 1 8) 2 6] /\
  exists out,
    arrange_best_segments [mk_Segment (mk_clip 0 10) 0 6 1 0; mk_Segment (mk_clip 1 8) 2 8 1 1] 10 (3#2)
      = inr out /\
    sum_durations out <= 10 /\
    packs [mk_Segment (mk_clip 0 10) 0 6 1 0; mk_Segment (mk_clip 1 8) 2 8 1 1] 10 (3#2) 0 out.
Proof.
  assert (Hs : Forall seg_in_clip [mk_Segment (mk_clip 0 10) 0 6 1 0; mk_Segment (mk_clip 1 8) 2 8 1 1]).
  { repeat constructor; unfold seg_in_clip; cbn; lra. }
  split; [exact Hs|]. split; [lra|]. split; [vm_compute; reflexivity|].
  apply (arrange_best_segments_budget _ 10 (3#2) Hs). lra.
Defined.

(** C1 counterexample: with a negative budget the bound fails.  With no
    segment the result is empty and its duration sum 0 exceeds the
    budget -1; with min_segment_duration -5 and one segment (0, 3) of a
    10 s clip the code calls [subclip(0, -1)], which moviepy reads as
    (0, 9): a 9 s extract for a budget of -1.  Nor does the function
    return for every list of segments: a segment starting at 12 in a
    10 s clip makes [subclip] raise. *)
Lemma arrange_best_segments_negative_budget :
  arrange_best_segments [] (-1) (3#2) = inr [] /\
  ~ (sum_durations [] <= -1) /\
  arrange_best_segments [mk_Segment (mk_clip 0 10) 0 3 0 0] (-1) (-5) =
    inr [mk_subclip (mk_clip 0 10) 0 9] /\
  ~ (sum_durations [mk_subclip (mk_clip 0 10) 0 9] <= -1) /\
  arrange_best_segments [mk_Segment (mk_clip 0 10) 12 14 0 0] 60 (3#2) =
    inl (SubclipStartError 12 10).
Proof.
  split; [reflexivity|]. split; [unfold sum_durations; simpl; lra|].
  split; [vm_compute; reflexivity|].
  split; [unfold sum_durations, sub_duration; simpl; lra|].
  vm_compute. reflexivity.
Qed.

(** ** Segment Splitter *)

(** C2 (amended).  For [segment_length >= 1], [split_in_segments] returns
    the windows [[0, L)], [[L, 2L)], ... in order, the last one cut at the
    duration [D], each of length at least 1, covering [[0, D)] except a
    dropped trailing remainder shorter than 1; for [D <= 0] it returns no
    window.  For [0 < segment_length < 1] it returns no window at all. *)
Theorem split_in_segments_steps (D L : Q) :
  (1 <= L ->
   exists ws, split_in_segments D L = Some ws /\
     covers_in_steps D L ws /\
     Forall (fun w => 1 <= snd w - fst w) ws /\
     (D <= 0 -> ws = [])) /\
  (0 < L -> L < 1 -> split_in_segments D L = Some []).
Proof.
  split.
  - intro HL.
    destruct (split_in_segments D L) as [ws|] eqn:E.
    2:{ exfalso. apply (split_in_segments_terminates D L); [lra|exact E]. }
    exists ws. split; [reflexivity|]. split; [|split].
    + unfold split_in_segments in E. apply (split_loop_covers D L HL _ _ _ E).
      unfold split_inv; cbn [sp_t sp_segments List.length].
      change (inject_Z (Z.of_nat 0)) with 0. rewrite Qmult_0_l.
      destruct (Qlt_le_dec D 0) as [HD|HD].
      * right. split; [lra|]. split; [intros k Hk; simpl in Hk; lia|].
        left. cbn [List.length]. change (inject_Z (Z.of_nat 0)) with 0. rewrite Qmult_0_l. lra.
      * left. split; [reflexivity|]. split; [exact HD|]. intros k Hk; simpl in Hk; lia.
    + unfold split_in_segments in E.
      apply (split_loop_good D L) in E; [|lra|simpl; lra|constructor].
      eapply Forall_impl; [|exact E]. intros w Hw. apply Hw.
    + intro HD. rewrite split_in_segments_nonpos in E by exact HD. congruence.
  - intros HL0 HL1.
    destruct (split_in_segments D L) as [ws|] eqn:E.
    2:{ exfalso. exact (split_in_segments_terminates D L HL0 E). }
    unfold split_in_segments in E.
    rewrite (split_loop_short D L HL1 _ _ _ E eq_refl). reflexivity.
Qed.

Lemma split_in_segments_steps_witness :
  1 <= 3 /\ split_in_segments (13#2) 3 = Some [(0, 3); (3, 6)] /\
  (exists ws, split_in_segments (13#2) 3 = Some ws /\
    covers_in_steps (13#2) 3 ws /\
    Forall (fun w => 1 <= snd w - fst w) ws /\
    ((13#2) <= 0 -> ws = [])) /\
  0 < 1#2 /\ (1#2) < 1 /\ split_in_segments 3 (1#2) = Some [].
Proof.
  split; [lra|]. split; [vm_compute; reflexivity|].
  split; [apply (proj1 (split_in_segments_steps (13#2) 3)); lra|].
  split; [lra|]. split; [lra|].
  apply (proj2 (split_in_segments_steps 3 (1#2))); lra.
Defined.

(** C2 counterexample: with [segment_length = 0.5] a clip of length 3
    gets no window at all, not windows covering [[0, 3)]. *)
Lemma split_in_segments_half_step :
  split_in_segments 3 (1#2) = Some [] /\ ~ covers_in_steps 3 (1#2) [].
Proof.
  split; [vm_compute; reflexivity|].
  intros [_ [H|[_ H]]]; cbn [List.length] in H;
    change (inject_Z (Z.of_nat 0)) with 0 in H; rewrite Qmult_0_l in H; lra.
Qed.

(** C9 (amended).  For [segment_length > 0], every window returned by
    [split_in_segments] has length at least 1 and lies in the clip:
    [0 <= t_start < t_end <= duration]; when [segment_length < 1] the
    result is empty for every duration.  For [segment_length <= 0] and a
    positive duration the [while] loop never terminates: no amount of
    iterations leaves it. *)
Theorem split_in_segments_windows (D L : Q) :
  (0 < L ->
   exists ws, split_in_segments D L = Some ws /\
     Forall (good_window D) ws /\
     (L < 1 -> ws = [])) /\
  (L <= 0 -> 0 < D ->
   split_in_segments D L = None /\
   forall fuel, split_loop fuel D L (mk_split_state 0 []) = None).
Proof.
  split.
  - intro HL.
    destruct (split_in_segments D L) as [ws|] eqn:E.
    2:{ exfalso. exact (split_in_segments_terminates D L HL E). }
    exists ws. split; [reflexivity|]. unfold split_in_segments in E. split.
    + apply (split_loop_good D L) in E; [exact E|lra|simpl; lra|constructor].
    + intro H1. exact (split_loop_short D L H1 _ _ _ E eq_refl).
  - intros HL HD.
    assert (Hf : forall fuel, split_loop fuel D L (mk_split_state 0 []) = None).
    { intro fuel. apply (split_loop_hangs D L HL). simpl. exact HD. }
    split; [apply Hf|exact Hf].
Qed.

Lemma split_in_segments_windows_witness :
  0 < 2 /\ split_in_segments 5 2 = Some [(0, 2); (2, 4); (4, 5)] /\
  (exists ws, split_in_segments 5 2 = Some ws /\ Forall (good_window 5) ws /\ (2 < 1 -> ws = [])) /\
  0 < 1#2 /\
  (exists ws, split_in_segments 3 (1#2) = Some ws /\ Forall (good_window 3) ws /\ ((1#2) < 1 -> ws = [])) /\
  0 <= 0 /\ 0 < 1 /\
  (split_in_segments 1 0 = None /\ forall fuel, split_loop fuel 1 0 (mk_split_state 0 []) = None).
Proof.
  split; [lra|]. split; [vm_compute; reflexivity|].
  split; [apply (proj1 (split_in_segments_windows 5 2)); lra|].
  split; [lra|].
  split; [apply (proj1 (split_in_segments_windows 3 (1#2))); lra|].
  split; [lra|]. split; [lra|].
  apply (proj2 (split_in_segments_windows 1 0)); lra.
Defined.

(** C9 counterexample: with [segment_length = 0] the [while] loop on a
    clip of length 1 never ends, so no list (empty or not) is returned. *)
Lemma split_in_segments_zero_step :
  split_in_segments 1 0 = None /\
  forall fuel, split_loop fuel 1 0 (mk_split_state 0 []) = None.
Proof.
  split; [vm_compute; reflexivity|].
  intro fuel. apply split_loop_hangs; simpl; lra.
Qed.

(** ** Best-Segment Selector *)

(** C3.  [extract_best_segment_per_clip] returns at most one segment per
    clip, in clip order (strictly increasing clip indices); each segment
    is a window of its clip, the earliest one of maximal score (ties keep
    the first window); a clip of duration 0, or more generally a clip with
    no window, contributes no segment. *)
Theorem extract_best_segment_per_clip_selection
    (segment_score : clip -> Q -> Q -> Q) (clips : list clip) (segment_length : Q)
    (segs : list Segment)
    (H : extract_best_segment_per_clip segment_score clips segment_length = Some segs) :
  StronglySorted lt (map clip_index segs) /\
  (forall s, In s segs ->
     nth_error clips (clip_index s) = Some (seg_clip s) /\
     score s = segment_score (seg_clip s) (t_start s) (t_end s) /\
     exists ws, split_in_segments (duration (seg_clip s)) segment_length = Some ws /\
       earliest_max (fun w => segment_score (seg_clip s) (fst w) (snd w)) ws (t_start s, t_end s)) /\
  (forall i c, nth_error clips i = Some c ->
     (duration c == 0 \/ split_in_segments (duration c) segment_length = Some []) ->
     forall s, In s segs -> clip_index s <> i).
Proof.
  apply extract_loop_picks in H. simpl in H. subst segs.
  split; [apply picks_sorted|split].
  - intros s Hs. destruct (picks_index _ _ _ _ _ Hs) as (_ & Hn & Hp).
    rewrite Nat.sub_0_r in Hn. split; [exact Hn|].
    unfold clip_pick in Hp.
    destruct (split_in_segments (duration (seg_clip s)) segment_length) as [ws|];
      [|destruct Hp].
    pose proof (best_loop_start segment_score (seg_clip s) (clip_index s) ws) as Hb.
    destruct (best_loop segment_score (seg_clip s) (clip_index s) ws None None) as [r|];
      [|destruct Hp].
    destruct Hp as [<-|[]]. destruct Hb as (_ & _ & Hsc & Hm).
    split; [exact Hsc|]. exists ws. split; [reflexivity|exact Hm].
  - intros i c Hc Hz s Hs Hi.
    assert (Hnil : split_in_segments (duration c) segment_length = Some []).
    { destruct Hz as [Hz|Hz]; [apply split_in_segments_nonpos; lra|exact Hz]. }
    pose proof (picks_filter segment_score segment_length 0 clips i c Hc) as Hf.
    simpl in Hf. unfold clip_pick in Hf. rewrite Hnil in Hf. simpl in Hf.
    assert (In s (filter (fun s => Nat.eqb (clip_index s) i)
                    (picks segment_score segment_length 0 clips))) as Hin.
    { apply filter_In. split; [exact Hs|]. apply Nat.eqb_eq. exact Hi. }
    rewrite Hf in Hin. destruct Hin.
Qed.

Lemma extract_best_segment_per_clip_selection_witness :
  extract_best_segment_per_clip (fun _ _ _ => 1) [mk_clip 0 0; mk_clip 1 7] 3 =
    Some [mk_Segment (mk_clip 1 7) 0 3 1 1] /\
  StronglySorted lt (map clip_index [mk_Segment (mk_clip 1 7) 0 3 1 1]).
Proof.
  assert (H : extract_best_segment_per_clip (fun _ _ _ => 1) [mk_clip 0 0; mk_clip 1 7] 3 =
                Some [mk_Segment (mk_clip 1 7) 0 3 1 1]) by (vm_compute; reflexivity).
  split; [exact H|].
  exact (proj1 (extract_best_segment_per_clip_selection _ _ _ _ H)).
Defined.

(** C10.  A clip with at least one window gets exactly one segment, whatever
    the scores (also all [0] or negative), for one of its windows, scored
    with that window's score. *)
Theorem extract_one_segment_per_windowed_clip
    (segment_score : clip -> Q -> Q -> Q) (clips : list clip) (segment_length : Q)
    (segs : list Segment) (i : nat) (c : clip) (ws : list window)
    (H : extract_best_segment_per_clip segment_score clips segment_length = Some segs)
    (Hc : nth_error clips i = Some c)
    (Hws : split_in_segments (duration c) segment_length = Some ws)
    (Hne : ws <> []) :
  exists s, filter (fun s => Nat.eqb (clip_index s) i) segs = [s] /\
    seg_clip s = c /\ In (t_start s, t_end s) ws /\
    score s = segment_score c (t_start s) (t_end s).
Proof.
  apply extract_loop_picks in H. simpl in H. subst segs.
  pose proof (picks_filter segment_score segment_length 0 clips i c Hc) as Hf.
  simpl in Hf. unfold clip_pick in Hf. rewrite Hws in Hf. rewrite Hf.
  pose proof (best_loop_start segment_score c i ws) as Hb.
  destruct (best_loop segment_score c i ws None None) as [r|]; [|contradiction].
  destruct Hb as (Hrc & _ & Hsc & pre & post & Hsplit & _).
  exists r. split; [reflexivity|]. split; [exact Hrc|]. split.
  - rewrite Hsplit. apply in_or_app. right. left. reflexivity.
  - exact Hsc.
Qed.

Lemma extract_one_segment_per_windowed_clip_witness :
  exists s, filter (fun s => Nat.eqb (clip_index s) 0)
              [mk_Segment (mk_clip 0 4) 0 3 (-2) 0] = [s] /\
    seg_clip s = mk_clip 0 4 /\ In (t_start s, t_end s) [(0, 3); (3, 4)] /\
    score s = (fun _ _ _ => -2) (mk_clip 0 4) (t_start s) (t_end s).
Proof.
  apply (extract_one_segment_per_windowed_clip (fun _ _ _ => -2) [mk_clip 0 4] 3
           [mk_Segment (mk_clip 0 4) 0 3 (-2) 0] 0 (mk_clip 0 4) [(0, 3); (3, 4)]).
  - vm_compute. reflexivity.
  - reflexivity.
  - vm_compute. reflexivity.
  - discriminate.
Defined.

(** ** Determinism of the selection and the packing *)

(** C8.  Selection and packing are functions of their inputs: two runs on
    clip lists in the same order with the same durations and the same
    deterministic scores select the same windows for the same clips, pack
    the same extracts and reach the same total; in particular two runs on
    the same clips with the same scorer agree. *)
Theorem selection_and_packing_deterministic
    (sc1 sc2 : clip -> Q -> Q -> Q) (cs1 cs2 : list clip)
    (segment_length max_total_duration min_segment_duration : Q)
    (Hrel : Forall2 (fun c1 c2 => duration c1 = duration c2 /\
                                  forall a b, sc1 c1 a b = sc2 c2 a b) cs1 cs2) :
  match extract_best_segment_per_clip sc1 cs1 segment_length,
        extract_best_segment_per_clip sc2 cs2 segment_length with
  | Some s1, Some s2 =>
      map seg_window s1 = map seg_window s2 /\
      exc_map (map sub_window) (arrange_best_segments s1 max_total_duration min_segment_duration) =
      exc_map (map sub_window) (arrange_best_segments s2 max_total_duration min_segment_duration) /\
      arrange_total s1 max_total_duration min_segment_duration =
      arrange_total s2 max_total_duration min_segment_duration
  | None, None => True
  | _, _ => False
  end.
Proof.
  pose proof (extract_loop_related sc1 sc2 cs1 cs2 segment_length 0 [] [] Hrel eq_refl) as He.
  pose proof (extract_loop_durations sc1 sc2 cs1 cs2 segment_length 0 [] [] Hrel eq_refl) as Hd.
  unfold extract_best_segment_per_clip.
  destruct (extract_loop sc1 0 cs1 segment_length []) as [s1|];
    destruct (extract_loop sc2 0 cs2 segment_length []) as [s2|]; try discriminate; [|exact I].
  injection He as He. injection Hd as Hd. split; [exact He|].
  pose proof (arrange_loop_windows max_total_duration min_segment_duration s1 s2 [] [] 0
                He Hd eq_refl) as Hw.
  unfold arrange_best_segments, arrange_total.
  destruct (arrange_loop s1 max_total_duration min_segment_duration [] 0) as [e1|r1];
    destruct (arrange_loop s2 max_total_duration min_segment_duration [] 0) as [e2|r2];
    cbn [exc_map] in *; try discriminate.
  - split; congruence.
  - injection Hw as Hw1 Hw2. split; congruence.
Qed.

Lemma selection_and_packing_deterministic_witness :
  Forall2 (fun c1 c2 => duration c1 = duration c2 /\
             forall a b, (fun c x y => y - x) c1 a b = (fun c x y => y - x) c2 a b)
    [mk_clip 0 8; mk_clip 1 5] [mk_clip 0 8; mk_clip 1 5] /\
  match extract_best_segment_per_clip (fun c x y => y - x) [mk_clip 0 8; mk_clip 1 5] 4,
        extract_best_segment_per_clip (fun c x y => y - x) [mk_clip 0 8; mk_clip 1 5] 4 with
  | Some s1, Some s2 =>
      map seg_window s1 = map seg_window s2 /\
      exc_map (map sub_window) (arrange_best_segments s1 6 (3#2)) =
      exc_map (map sub_window) (arrange_best_segments s2 6 (3#2)) /\
      arrange_total s1 6 (3#2) = arrange_total s2 6 (3#2)
  | None, None => True
  | _, _ => False
  end.
Proof.
  assert (Hrel : Forall2 (fun c1 c2 => duration c1 = duration c2 /\
             forall a b, (fun c x y => y - x) c1 a b = (fun c x y => y - x) c2 a b)
    [mk_clip 0 8; mk_clip 1 5] [mk_clip 0 8; mk_clip 1 5]).
  { repeat constructor. }
  split; [exact Hrel|].
  exact (selection_and_packing_deterministic _ _ _ _ 4 6 (3#2) Hrel).
Defined.

(** ** Audio Scorer *)

(** C5.  [audio_energy_for_segment] never raises: without an audio track it
    returns [0.0] at once, printing nothing; any failure inside the [try]
    block (cutting the audio, decoding it) is printed as a warning and
    scored [0.0]. *)
Theorem audio_energy_for_segment_total
    (audio : Type) (clip_audio : clip -> option audio)
    (audio_subclip : audio -> Q -> Q -> exn + audio) (audio_duration : audio -> option Q)
    (to_soundarray : audio -> list Q -> Z -> exn + sound_array) (sqrt : Q -> Q)
    (c : clip) (t_start t_end : Q) :
  let r := audio_energy_for_segment audio clip_audio audio_subclip audio_duration
             to_soundarray sqrt c t_start t_end in
  (clip_audio c = None -> r = (inr 0, [])) /\
  (exists v, fst r = inr v) /\
  (forall a e, clip_audio c = Some a ->
     audio_energy_body audio audio_subclip audio_duration to_soundarray sqrt a t_start t_end = inl e ->
     r = (inr 0, [Warn t_start t_end e])).
Proof.
  cbn zeta. unfold audio_energy_for_segment.
  split; [intros ->; reflexivity|split].
  - destruct (clip_audio c) as [a|]; [|eexists; reflexivity].
    destruct (audio_energy_body _ _ _ _ _ a t_start t_end); eexists; reflexivity.
  - intros a e -> He. rewrite He. reflexivity.
Qed.

(** The two calls that decode can fail; the failure reaches the [except]
    clause. *)
Lemma audio_energy_body_subclip_fails audio audio_subclip audio_duration to_soundarray sqrt
    (a : audio) t_start t_end e :
  audio_subclip a t_start t_end = inl e ->
  audio_energy_body audio audio_subclip audio_duration to_soundarray sqrt a t_start t_end = inl e.
Proof. intro H. unfold audio_energy_body. rewrite H. reflexivity. Qed.

(** ** Exporter *)

(** C6.  [concat_and_export] on an empty list raises [ValueError] and
    performs no I/O: nothing is opened, closed or written. *)
Theorem concat_and_export_empty (env : media_env) (export_path : string)
    (bg_music_path : option string) (s : state) :
  concat_and_export env [] export_path bg_music_path s =
  (Raised (ValueError "No clips selected."), mk_state (st_trace s) None None None).
Proof. destruct s. reflexivity. Qed.

(** ** Pipeline Orchestrator *)

(** C7.  When no entry of the directory is a file with a suffix in
    [FORMATS], [build_travel_summary_smart] raises
    ["No videos found in <dir>"] without any I/O: no clip is opened and no
    file is written. *)
Theorem build_travel_summary_smart_no_videos (env : media_env) (video_dir : directory)
    (output_path : string) (segment_length max_total_duration : Q)
    (bg_music_path : option string) (s : state)
    (Hnone : Forall (fun v => entry_is_file v = false \/ in_FORMATS (suffix (entry_name v)) = false)
               (dir_entries video_dir)) :
  build_travel_summary_smart env video_dir output_path segment_length max_total_duration
    bg_music_path s =
  (Raised (ValueError ("No videos found in " ++ dir_path video_dir)), s).
Proof.
  unfold build_travel_summary_smart.
  replace (available_vids video_dir) with (@nil dir_entry); [reflexivity|].
  unfold available_vids. symmetry.
  induction Hnone as [|v vs Hv _ IH]; [reflexivity|].
  simpl. destruct Hv as [-> | ->]; [|rewrite andb_false_r]; exact IH.
Qed.

Lemma build_travel_summary_smart_no_videos_witness :
  Forall (fun v => entry_is_file v = false \/ in_FORMATS (suffix (entry_name v)) = false)
    (dir_entries dir_without_videos) /\
  build_travel_summary_smart env_example dir_without_videos "out.mp4" 6 85 None init_state =
  (Raised (ValueError ("No videos found in " ++ dir_path dir_without_videos)), init_state).
Proof.
  assert (H : Forall (fun v => entry_is_file v = false \/ in_FORMATS (suffix (entry_name v)) = false)
                (dir_entries dir_without_videos)).
  { repeat constructor; right; vm_compute; reflexivity. }
  split; [exact H|].
  exact (build_travel_summary_smart_no_videos env_example dir_without_videos "out.mp4" 6 85 None
           init_state H).
Defined.

(** C4 (failing input).  Clips that yield no extract are never closed:
    "b.mp4" (0.5 s, no window) stays open after a successful run; a single
    0.5 s video makes the call raise with its clip open; and when writing
    fails the concatenated clip stays open. *)
Theorem build_travel_summary_smart_leaks :
  (let r := build_travel_summary_smart (env_durations true) dir_ab "out.mp4" 6 85 None init_state in
   fst r = Normal tt /\ open_handles (st_trace (snd r)) = [HClip 1]) /\
  (let r := build_travel_summary_smart (env_durations true) dir_b "out.mp4" 6 85 None init_state in
   fst r = Raised (ValueError "No clips selected.") /\ open_handles (st_trace (snd r)) = [HClip 0]) /\
  (let r := build_travel_summary_smart (env_durations false) dir_a "out.mp4" 6 85 None init_state in
   fst r = Raised WriteError /\ open_handles (st_trace (snd r)) = [HFinal]).
Proof. vm_compute. repeat split. Qed.

(** * Further properties of the code *)

(** ** [selected_by_duration] *)

Module VideoProcessorFacts.
Import VideoProcessor.

Lemma sum_vdurations_snoc l x : sum_vdurations (l ++ [x]) = sum_vdurations l + vclip_duration x.
Proof. unfold sum_vdurations. rewrite fold_left_app. reflexivity. Qed.

Section Loop.

Variables max_total_length min_clip_length max_clip_length : Q.

(** The cases of one iteration; with [0 <= min_clip_length] and
    [0 <= max_clip_length] every [subclip] call reads its arguments as
    given. *)
Ltac vp_cases c total :=
  destruct (Qltb (duration c) min_clip_length) eqn:E1;
  [ | (destruct (Qltb max_clip_length (duration c)) eqn:E2;
        [ rewrite (subclip_of_plain c 0 max_clip_length) by (qcase; lra) | ]);
      cbn [exc_map exc_bind];
      (destruct (Qltb max_total_length (total + _)) eqn:E3;
       [ (destruct (Qleb min_clip_length (max_total_length - total)) eqn:E4;
          [ rewrite (subclip_of_plain c 0 (max_total_length - total)) by (qcase; lra);
            cbn [exc_bind] | ]) | ]) ].

Lemma selected_loop_good (Hmn : 0 <= min_clip_length) (Hm : min_clip_length <= max_clip_length)
    cs sel total :
  Forall (good_extract min_clip_length max_clip_length) sel ->
  exists r, selected_loop cs max_total_length min_clip_length max_clip_length sel total = inr r /\
    Forall (good_extract min_clip_length max_clip_length) (fst r).
Proof.
  revert sel total. induction cs as [|c cs IH]; intros sel total Hsel; cbn [selected_loop].
  - exists (sel, total). split; [reflexivity|exact Hsel].
  - vp_cases c total.
    all: try (apply IH; exact Hsel).
    all: try (eexists; split; [reflexivity|cbn [fst]]).
    all: try exact Hsel.
    all: try apply IH.
    all: qcase; apply Forall_app; split; [exact Hsel|]; constructor; [|constructor].
    all: unfold good_extract;
      cbn [vclip_start vclip_duration vclip_source]; unfold sub_duration; cbn [sub_start sub_end sub_clip];
      repeat split; lra.
Qed.

Lemma selected_loop_budget (Hmn : 0 <= min_clip_length) (Hmc : 0 <= max_clip_length) cs sel total :
  sum_vdurations sel == total -> total <= max_total_length ->
  exists r, selected_loop cs max_total_length min_clip_length max_clip_length sel total = inr r /\
    sum_vdurations (fst r) <= max_total_length.
Proof.
  revert sel total. induction cs as [|c cs IH]; intros sel total Hs Ht; cbn [selected_loop].
  - exists (sel, total). cbn [fst]. split; [reflexivity|lra].
  - vp_cases c total.
    all: try (apply IH; assumption).
    all: try (eexists; split; [reflexivity|cbn [fst]]).
    all: qcase.
    all: try (rewrite sum_vdurations_snoc; cbn [vclip_duration]; unfold sub_duration; cbn [sub_start sub_end]; lra).
    all: try lra.
    all: apply IH; rewrite ?sum_vdurations_snoc; cbn [vclip_duration]; unfold sub_duration; cbn [sub_start sub_end]; lra.
Qed.

Lemma selected_loop_total (Hmn : 0 <= min_clip_length) (Hmc : 0 <= max_clip_length) cs sel total :
  sum_vdurations sel == total ->
  exists r, selected_loop cs max_total_length min_clip_length max_clip_length sel total = inr r /\
    (snd r == sum_vdurations (fst r) \/
     (sum_vdurations (fst r) == max_total_length /\ max_total_length < snd r)).
Proof.
  revert sel total. induction cs as [|c cs IH]; intros sel total Hs; cbn [selected_loop].
  - exists (sel, total). cbn [fst snd]. split; [reflexivity|left; lra].
  - vp_cases c total.
    all: try (apply IH; assumption).
    all: try (eexists; split; [reflexivity|cbn [fst snd]]).
    all: qcase.
    all: try (left; lra).
    all: try (right; rewrite sum_vdurations_snoc; cbn [vclip_duration]; unfold sub_duration; cbn [sub_start sub_end];
              split; lra).
    all: apply IH; rewrite sum_vdurations_snoc; cbn [vclip_duration]; unfold sub_duration; cbn [sub_start sub_end]; lra.
Qed.

Lemma selected_loop_sources cs sel total r :
  selected_loop cs max_total_length min_clip_length max_clip_length sel total = inr r ->
  exists kept, sublist kept cs /\ map vclip_source (fst r) = map vclip_source sel ++ kept.
Proof.
  assert (Hnil : forall l : list clip, sublist [] l)
    by (induction l; constructor; assumption).
  revert sel total. induction cs as [|c cs IH]; intros sel total Hr; cbn [selected_loop] in Hr.
  - injection Hr as <-. exists []. rewrite app_nil_r. split; [constructor|reflexivity].
  - destruct (Qltb (duration c) min_clip_length).
    + destruct (IH sel total Hr) as (k & Hk & He). exists k. split; [constructor; exact Hk|exact He].
    + destruct (if Qltb max_clip_length (duration c)
                then exc_map (fun s => (Cut s, max_clip_length)) (subclip_of c 0 max_clip_length)
                else inr (Full c, duration c)) as [e|[cutted duration1]] eqn:Ecut;
        [discriminate|].
      assert (Hsrc : vclip_source cutted = c).
      { destruct (Qltb max_clip_length (duration c)).
        - unfold subclip_of in Ecut.
          destruct (Qltb (duration c) _); cbn [exc_map] in Ecut; [discriminate|].
          injection Ecut as <- _. reflexivity.
        - injection Ecut as <- _. reflexivity. }
      destruct (Qltb max_total_length (total + duration1)).
      * destruct (Qleb min_clip_length (max_total_length - total)).
        -- destruct (subclip_of c 0 (max_total_length - total)) as [e|partial] eqn:Ep;
             cbn [exc_bind] in Hr; [discriminate|].
           injection Hr as <-. exists [c]. cbn [fst]. rewrite map_app.
           split; [constructor; apply Hnil|].
           unfold subclip_of in Ep. destruct (Qltb (duration c) _); [discriminate|].
           injection Ep as <-. reflexivity.
        -- injection Hr as <-. exists []. rewrite app_nil_r. split; [apply Hnil|reflexivity].
      * destruct (IH _ _ Hr) as (k & Hk & He). exists (c :: k).
        split; [constructor; exact Hk|]. rewrite He, map_app, <- app_assoc. cbn [map].
        rewrite Hsrc. reflexivity.
Qed.

End Loop.

End VideoProcessorFacts.

(** ** Open handles along a trace *)

Lemma still_open_iff h (P P' : Prop) tr : (P <-> P') -> (still_open h P tr <-> still_open h P' tr).
Proof.
  revert P P'. induction tr as [|[h'|h'|w] t IH]; intros P P' HP; cbn [still_open];
    [exact HP| | |]; apply IH; tauto.
Qed.

#[export] Instance still_open_proper h : Proper (iff ==> eq ==> iff) (still_open h).
Proof. intros P P' HP tr tr' <-. apply still_open_iff. exact HP. Qed.

Lemma still_open_app h P t1 t2 : still_open h P (t1 ++ t2) = still_open h (still_open h P t1) t2.
Proof.
  revert P. induction t1 as [|[h'|h'|w] t IH]; intros P; cbn [still_open app]; auto.
Qed.

Lemma still_open_closes h P hs :
  still_open h P (map EClose hs) <-> ~ In h hs /\ P.
Proof.
  revert P. induction hs as [|x hs IH]; intros P; cbn [map still_open In].
  - tauto.
  - rewrite IH. intuition (subst; auto).
Qed.

Lemma open_handles_app h tr tr' :
  In h (open_handles (tr ++ tr')) <-> still_open h (In h (open_handles tr)) tr'.
Proof.
  unfold open_handles. rewrite fold_left_app.
  generalize (fold_left (fun hs e =>
    match e with
    | EOpen h0 => h0 :: hs
    | EClose h0 => remove handle_eq_dec h0 hs
    | EWrite _ => hs
    end) tr []) as hs.
  induction tr' as [|[h'|h'|w] t IH]; intros hs; cbn [fold_left still_open]; [tauto| | |];
    rewrite IH; apply still_open_iff.
  - cbn [In]. split; intros [H|H]; auto.
  - split; [intro H; apply in_remove in H; tauto|].
    intros [H1 H2]. apply in_in_remove; assumption.
  - tauto.
Qed.

Lemma open_handles_nil h : In h (open_handles []) <-> False.
Proof. cbn. tauto. Qed.

(** ** Effects of the loops over clips *)

Lemma for_each_emit {A} (f : A -> event) l s :
  for_each (fun x => emit (f x)) l s =
  (Normal tt, mk_state (st_trace s ++ map f l) (st_music_clip s) (st_music_loop s) (st_mixed_audio s)).
Proof.
  revert s. induction l as [|x l IH]; intros [tr a b c].
  - cbn. rewrite app_nil_r. reflexivity.
  - cbn [for_each]. unfold bind at 1. cbn [emit]. rewrite IH. cbn.
    rewrite <- app_assoc. reflexivity.
Qed.

Lemma load_loop_effect env i vids s :
  load_loop env i vids s =
  (Normal (map (fun p => mk_clip (fst p) (env_duration env (entry_name (snd p))))
             (combine (seq i (List.length vids)) vids)),
   mk_state (st_trace s ++ map (fun j => EOpen (HClip j)) (seq i (List.length vids)))
     (st_music_clip s) (st_music_loop s) (st_mixed_audio s)).
Proof.
  revert i s. induction vids as [|v vs IH]; intros i [tr a b c].
  - cbn. rewrite app_nil_r. reflexivity.
  - cbn [load_loop]. unfold bind at 1. cbn [emit]. unfold bind. rewrite IH. cbn.
    rewrite <- app_assoc. reflexivity.
Qed.

Lemma combine_ids i (vs : list dir_entry) (g : dir_entry -> Q) :
  map clip_id (map (fun p => mk_clip (fst p) (g (snd p))) (combine (seq i (List.length vs)) vs))
  = seq i (List.length vs) /\
  map duration (map (fun p => mk_clip (fst p) (g (snd p))) (combine (seq i (List.length vs)) vs))
  = map g vs.
Proof.
  revert i. induction vs as [|v vs IH]; intros i; [split; reflexivity|].
  cbn. destruct (IH (S i)) as [H1 H2]. rewrite H1, H2. split; reflexivity.
Qed.

Lemma vp_concat_and_export_effect env clips p s :
  clips <> [] ->
  VideoProcessor.concat_and_export env clips p s =
  (if env_write_ok env then Normal tt else Raised WriteError,
   mk_state (st_trace s ++ [EOpen HFinal; EWrite p] ++
             (if env_write_ok env then [EClose HFinal] else []) ++
             map (fun v => EClose (HClip (clip_id (VideoProcessor.vclip_source v)))) clips)
     (st_music_clip s) (st_music_loop s) (st_mixed_audio s)).
Proof.
  intro Hne. destruct clips as [|v vs]; [congruence|]. destruct s as [tr a b c].
  unfold VideoProcessor.concat_and_export, try_finally.
  change (for_each VideoProcessor.close_vclip (v :: vs)) with
    (for_each (fun x => emit (EClose (HClip (clip_id (VideoProcessor.vclip_source x))))) (v :: vs)).
  assert (Hfe : forall s, for_each (fun x => emit (EClose (HClip (clip_id (VideoProcessor.vclip_source x)))))
                            (v :: vs) s =
    (Normal tt, mk_state (st_trace s ++ map (fun x => EClose (HClip (clip_id (VideoProcessor.vclip_source x))))
                            (v :: vs)) (st_music_clip s) (st_music_loop s) (st_mixed_audio s)))
    by (intro; apply (for_each_emit (fun x => EClose (HClip (clip_id (VideoProcessor.vclip_source x)))))).

  revert Hfe. generalize (for_each (fun x => emit (EClose (HClip (clip_id (VideoProcessor.vclip_source x)))))
                          (v :: vs)).
  intros fe Hfe.
  destruct (env_write_ok env) eqn:Ew;
    unfold write_videofile, bind, emit, ret, raise; rewrite Ew; cbn; rewrite Hfe; cbn;
    rewrite <- !app_assoc; reflexivity.
Qed.

Lemma concat_and_export_effect env clips p bg s :
  clips <> [] ->
  concat_and_export env clips p bg s =
  (if env_write_ok env then Normal tt else Raised WriteError,
   mk_state (st_trace s ++ [EOpen HFinal] ++
             (match bg with
              | Some m => if env_exists env m
                          then [EOpen HMusic; EOpen HLoop; EOpen HLoopVol] ++
                               (if env_has_audio env then [EOpen HMixed] else [])
                          else []
              | None => []
              end) ++ [EWrite p] ++
             (if env_write_ok env then [EClose HFinal] else []) ++
             map (fun c => EClose (HClip (clip_id (sub_clip c)))) clips ++
             (match bg with
              | Some m => if env_exists env m
                          then (if env_has_audio env then [EClose HMixed] else [EClose HLoopVol]) ++
                               [EClose HLoopVol; EClose HMusic]
                          else []
              | None => []
              end))
     (match bg with
      | Some m => if env_exists env m then Some HMusic else None
      | None => None
      end)
     (match bg with
      | Some m => if env_exists env m then Some HLoopVol else None
      | None => None
      end)
     (match bg with
      | Some m => if env_exists env m
                  then Some (if env_has_audio env then HMixed else HLoopVol) else None
      | None => None
      end)).
Proof.
  intro Hne. destruct clips as [|v vs]; [congruence|]. destruct s as [tr a b c].
  unfold concat_and_export, try_finally.
  change (for_each close_clip (v :: vs)) with
    (for_each (fun x => emit (EClose (HClip (clip_id (sub_clip x))))) (v :: vs)).
  assert (Hfe : forall s, for_each (fun x => emit (EClose (HClip (clip_id (sub_clip x))))) (v :: vs) s =
    (Normal tt, mk_state (st_trace s ++ map (fun x => EClose (HClip (clip_id (sub_clip x)))) (v :: vs))
                  (st_music_clip s) (st_music_loop s) (st_mixed_audio s)))
    by (intro; apply (for_each_emit (fun x => EClose (HClip (clip_id (sub_clip x)))))).

  revert Hfe. generalize (for_each (fun x => emit (EClose (HClip (clip_id (sub_clip x))))) (v :: vs)).
  intros fe Hfe.
  destruct bg as [m|]; [destruct (env_exists env m) eqn:Ee; [destruct (env_has_audio env) eqn:Ea|]|];
    destruct (env_write_ok env) eqn:Ew;
    unfold write_videofile; rewrite Ew;
    cbv [bind emit ret raise set_music_clip set_music_loop set_mixed_audio get_locals
         st_trace st_music_clip st_music_loop st_mixed_audio];
    rewrite Hfe; cbn [st_trace st_music_clip st_music_loop st_mixed_audio for_each close_audio];
    cbv [bind emit ret st_trace st_music_clip st_music_loop st_mixed_audio];
    rewrite <- ?app_assoc; cbn [app]; rewrite ?app_nil_r; reflexivity.
Qed.

Lemma split_in_segments_good D L ws :
  split_in_segments D L = Some ws -> Forall (good_window D) ws.
Proof.
  unfold split_in_segments. destruct (Qltb 0 L) eqn:EL.
  - qcase. intro H. apply (split_loop_good D L) in H; [exact H|lra|simpl; lra|constructor].
  - unfold split_fuel. rewrite EL. cbn [split_loop sp_t sp_segments].
    destruct (Qltb 0 D); [discriminate|]. intro H; injection H as <-. constructor.
Qed.

Lemma earliest_max_in (f : window -> Q) ws w : earliest_max f ws w -> In w ws.
Proof.
  intros (pre & post & -> & _ & _). apply in_or_app. right. left. reflexivity.
Qed.

Lemma picks_good sc L idx cs s :
  In s (picks sc L idx cs) ->
  In (seg_clip s) cs /\ good_window (duration (seg_clip s)) (t_start s, t_end s).
Proof.
  intro H. destruct (picks_index sc L idx cs s H) as (_ & Hn & Hp). split.
  - eapply nth_error_In. exact Hn.
  - unfold clip_pick in Hp.
    destruct (split_in_segments (duration (seg_clip s)) L) as [ws|] eqn:Es; [|destruct Hp].
    pose proof (best_loop_start sc (seg_clip s) (clip_index s) ws) as Hb.
    destruct (best_loop sc (seg_clip s) (clip_index s) ws None None) as [r|]; [|destruct Hp].
    destruct Hp as [<-|[]]. destruct Hb as (_ & _ & _ & Hm).
    apply earliest_max_in in Hm.
    apply split_in_segments_good in Es. rewrite Forall_forall in Es. apply Es, Hm.
Qed.

Lemma arrange_loop_within mx mn segments selected total :
  Forall (fun s => good_window (duration (seg_clip s)) (t_start s, t_end s)) segments ->
  (0 <= mn \/ total <= mx) ->
  exists r, arrange_loop segments mx mn selected total = inr r /\
  Forall (fun x => In (sub_clip x) (map seg_clip segments) \/ In x selected) (fst r) /\
  (Forall (fun x => 0 <= sub_start x /\ sub_end x <= duration (sub_clip x) /\ mn <= sub_end x - sub_start x) selected ->
   Forall (fun x => 0 <= sub_start x /\ sub_end x <= duration (sub_clip x) /\ mn <= sub_end x - sub_start x)
     (fst r)).
Proof.
  revert selected total. induction segments as [|g gs IH]; intros selected total Hg Hroom.
  - exists (selected, total). cbn [arrange_loop fst]. split; [reflexivity|]. split; [|tauto].
    apply Forall_forall. intros x Hx. right. exact Hx.
  - inversion Hg as [|? ? Hg1 Hgs]; subst. destruct Hg1 as (H1 & H2 & H3 & H4).
    cbn [fst snd] in H1, H2, H3, H4.
    cbn [arrange_loop].
    destruct (Qltb (t_end g - t_start g) mn) eqn:E1.
    + destruct (IH selected total Hgs Hroom) as (r & Hr & Ha & Hb). exists r.
      split; [exact Hr|]. split; [|exact Hb].
      eapply Forall_impl; [|exact Ha]. intros x [Hx|Hx]; [left; right; exact Hx|right; exact Hx].
    + destruct (Qltb mx (total + (t_end g - t_start g))) eqn:E2;
        [destruct (Qleb mn (mx - total)) eqn:E3|]; qcase.
      * assert (Hrem : 0 <= mx - total) by (destruct Hroom; lra).
        rewrite subclip_of_plain by lra. cbn [exc_bind].
        eexists; split; [reflexivity|]. cbn [fst]. split.
        -- apply Forall_forall. intros x Hx. apply in_app_or in Hx as [Hx|[<-|[]]];
             [right; exact Hx|left; left; reflexivity].
        -- intro Hs. apply Forall_app. split; [exact Hs|]. constructor; [|constructor].
           cbn [sub_start sub_end sub_clip]. repeat split; lra.
      * eexists; split; [reflexivity|]. cbn [fst].
        split; [|tauto]. apply Forall_forall. intros x Hx. right. exact Hx.
      * rewrite subclip_of_plain by lra. cbn [exc_bind].
        destruct (IH (selected ++ [mk_subclip (seg_clip g) (t_start g) (t_end g)])
                     (total + (t_end g - t_start g)) Hgs (or_intror E2)) as (r & Hr & Ha & Hb).
        exists r. split; [exact Hr|]. split.
        -- eapply Forall_impl; [|exact Ha]. intros x [Hx|Hx]; [left; right; exact Hx|].
           apply in_app_or in Hx as [Hx|[<-|[]]]; [right; exact Hx|left; left; reflexivity].
        -- intro Hs. apply Hb. apply Forall_app. split; [exact Hs|]. constructor; [|constructor].
           cbn [sub_start sub_end sub_clip]. repeat split; lra.
Qed.

(** ** File names *)

Lemma rfind_dot_app a b i f :
  rfind_dot (a ++ b)%string i f = rfind_dot b (i + String.length a)%nat (rfind_dot a i f).
Proof.
  revert i f. induction a as [|c a IH]; intros i f; cbn [append rfind_dot String.length].
  - rewrite Nat.add_0_r. reflexivity.
  - rewrite IH. f_equal. lia.
Qed.

Lemma length_app_string a b : String.length (a ++ b)%string = (String.length a + String.length b)%nat.
Proof. induction a as [|c a IH]; cbn; auto. Qed.

Lemma substring_app_l a b n : substring (String.length a) n (a ++ b)%string = substring 0 n b.
Proof. induction a as [|c a IH]; cbn; auto. Qed.

Lemma substring_all s : substring 0 (String.length s) s = s.
Proof. induction s as [|c s IH]; cbn; [reflexivity|]. rewrite IH. reflexivity. Qed.

Lemma substring_split s i :
  (i <= String.length s)%nat ->
  s = (substring 0 i s ++ substring i (String.length s - i)%nat s)%string /\
  String.length (substring 0 i s) = i.
Proof.
  revert i. induction s as [|c s IH]; intros i Hi.
  - cbn in Hi. assert (i = 0%nat) by lia. subst. split; reflexivity.
  - destruct i as [|i].
    + cbn. rewrite substring_all. split; reflexivity.
    + cbn in Hi |- *. destruct (IH i) as [H1 H2]; [lia|]. split; [|rewrite H2; reflexivity].
      f_equal. exact H1.
Qed.

Lemma in_FORMATS_iff s : in_FORMATS s = true <-> In s FORMATS.
Proof.
  unfold in_FORMATS. rewrite existsb_exists. split.
  - intros (x & Hx & E). apply String.eqb_eq in E. subst. exact Hx.
  - intro H. exists s. split; [exact H|]. apply String.eqb_refl.
Qed.

Lemma suffix_of_format base ext :
  base <> ""%string -> In ext FORMATS -> suffix (base ++ ext) = ext.
Proof.
  intros Hb He. unfold suffix. rewrite rfind_dot_app, Nat.add_0_l, length_app_string.
  assert (Hl : (0 < String.length base)%nat) by (destruct base; [congruence|cbn; lia]).
  assert (Hr : forall f, rfind_dot ext (String.length base) f = Some (String.length base) /\
                         String.length ext = 4%nat).
  { intro f. destruct He as [<-|[<-|[<-|[<-|[]]]]]; cbn; split; reflexivity. }
  destruct (Hr (rfind_dot base 0 None)) as [-> H4]. rewrite H4.
  replace (Nat.ltb 0 (String.length base)) with true by (symmetry; apply Nat.ltb_lt; lia).
  replace (Nat.ltb (String.length base) (String.length base + 4 - 1)) with true
    by (symmetry; apply Nat.ltb_lt; lia).
  cbn [andb]. replace (String.length base + 4 - String.length base)%nat with 4%nat by lia.
  rewrite substring_app_l, <- H4, substring_all. reflexivity.
Qed.

Lemma suffix_split name :
  suffix name <> ""%string ->
  exists base, base <> ""%string /\ name = (base ++ suffix name)%string.
Proof.
  unfold suffix. destruct (rfind_dot name 0 None) as [i|]; [|congruence].
  destruct (Nat.ltb 0 i && Nat.ltb i (String.length name - 1))%bool eqn:E; [|congruence].
  apply andb_true_iff in E as [E1 E2]. apply Nat.ltb_lt in E1, E2. intros _.
  destruct (substring_split name i) as [H1 H2]; [lia|].
  exists (substring 0 i name). split; [|exact H1].
  intro H. rewrite H in H2. cbn in H2. lia.
Qed.

(** ** Traces of the exporters *)

Lemma writes_app t1 t2 : writes (t1 ++ t2) = writes t1 ++ writes t2.
Proof. unfold writes. apply flat_map_app. Qed.

Lemma writes_closes hs : writes (map EClose hs) = [].
Proof. induction hs as [|h hs IH]; [reflexivity|exact IH]. Qed.

Lemma map_EClose {A} (f : A -> handle) l : map (fun x => EClose (f x)) l = map EClose (map f l).
Proof. rewrite map_map. reflexivity. Qed.

Lemma not_in_clip_handles {A} (f : A -> nat) (l : list A) h :
  (forall n, h <> HClip n) -> ~ In h (map (fun x => HClip (f x)) l).
Proof. intros Hn Hin. apply in_map_iff in Hin as (x & Hx & _). exact (Hn _ (eq_sym Hx)). Qed.

Ltac handle_neq :=
  repeat match goal with
  | |- ~ In ?h (map (fun x => HClip _) _) => apply not_in_clip_handles; intros ? ?; discriminate
  end.

Lemma vp_concat_and_export_spec (env : media_env) (clips : list VideoProcessor.vclip)
    (export_path : string) (s : state) :
  let r := VideoProcessor.concat_and_export env clips export_path s in
  fst r = match clips with
          | [] => Raised (ValueError "No clips selected.")
          | _ :: _ => if env_write_ok env then Normal tt else Raised WriteError
          end /\
  writes (st_trace (snd r)) =
    writes (st_trace s) ++ match clips with [] => [] | _ :: _ => [export_path] end /\
  forall h, In h (open_handles (st_trace (snd r))) <->
    (In h (open_handles (st_trace s)) /\
     ~ In h (map (fun v => HClip (clip_id (VideoProcessor.vclip_source v))) clips) /\
     (clips <> [] -> h <> HFinal)) \/
    (h = HFinal /\ clips <> [] /\ env_write_ok env = false).
Proof.
  destruct clips as [|v vs].
  - destruct s as [tr a b c]. cbn -[writes open_handles]. rewrite app_nil_r.
    split; [reflexivity|split; [reflexivity|]]. intro h. split.
    + intro H. left. split; [exact H|]. split; [tauto|]. intro Hc. congruence.
    + intros [(H & _)|(_ & H & _)]; [exact H|congruence].
  - intro r. subst r. rewrite vp_concat_and_export_effect by discriminate.
    cbn [fst snd st_trace]. split; [reflexivity|]. split.
    + rewrite !writes_app, map_EClose, writes_closes.
      destruct (env_write_ok env); reflexivity.
    + intro h. rewrite open_handles_app, !still_open_app.
      rewrite map_EClose, still_open_closes.
      destruct (env_write_ok env); cbn [still_open];
        (destruct (handle_eq_dec h HFinal) as [->|Hne]; [assert (Hc := not_in_clip_handles
          (fun v => clip_id (VideoProcessor.vclip_source v)) (v :: vs) HFinal ltac:(discriminate))|]);
        intuition congruence.
Qed.

Lemma concat_and_export_spec (env : media_env) (clips : list subclip) (export_path : string)
    (bg_music_path : option string) (s : state)
    (Hne : clips <> [])
    (Hs : forall h, In h (open_handles (st_trace s)) -> exists i, h = HClip i) :
  let r := concat_and_export env clips export_path bg_music_path s in
  fst r = (if env_write_ok env then Normal tt else Raised WriteError) /\
  writes (st_trace (snd r)) = writes (st_trace s) ++ [export_path] /\
  forall h, In h (open_handles (st_trace (snd r))) <->
    (In h (open_handles (st_trace s)) /\ ~ In h (map (fun c => HClip (clip_id (sub_clip c))) clips)) \/
    (h = HFinal /\ env_write_ok env = false) \/
    (h = HLoop /\ exists m, bg_music_path = Some m /\ env_exists env m = true).
Proof.
  intro r. subst r. rewrite concat_and_export_effect by exact Hne. cbn [fst snd st_trace].
  split; [reflexivity|]. split.
  - rewrite !writes_app, map_EClose, writes_closes.
    destruct bg_music_path as [m|]; [destruct (env_exists env m); [destruct (env_has_audio env)|]|];
      destruct (env_write_ok env); reflexivity.
  - intro h. rewrite open_handles_app, !still_open_app.
    assert (Hex : (exists m, bg_music_path = Some m /\ env_exists env m = true) <->
                  match bg_music_path with Some m => env_exists env m = true | None => False end).
    { destruct bg_music_path as [m|]; split; [intros (m' & [= <-] & H); exact H|intro H; eauto
                                               |intros (m' & [=] & _)|intros []]. }
    rewrite Hex. clear Hex.
    assert (Hi : forall h', h = h' -> (forall i, h' <> HClip i) ->
                 ~ In h (open_handles (st_trace s)) /\
                 ~ In h (map (fun c => HClip (clip_id (sub_clip c))) clips)).
    { intros h' -> Hh'. split; [intro Hh; destruct (Hs _ Hh) as [i Hi]; exact (Hh' i Hi)|].
      apply not_in_clip_handles. intros i Hi. exact (Hh' i Hi). }
    destruct h as [n| | | | |];
      try (destruct (Hi _ eq_refl ltac:(intro; discriminate)) as [Hi1 Hi2]); clear Hi;
    (destruct bg_music_path as [m|]; [destruct (env_exists env m) eqn:Ee; [destruct (env_has_audio env)|]|]);
      destruct (env_write_ok env); cbn [still_open app]; rewrite map_EClose, still_open_closes;
      intuition congruence.
Qed.


Lemma concat_and_export_nil env export_path bg_music_path s :
  concat_and_export env [] export_path bg_music_path s =
  (Raised (ValueError "No clips selected."), mk_state (st_trace s) None None None).
Proof. destruct s. reflexivity. Qed.

Lemma still_open_opens h P l :
  still_open h P (map (fun j => EOpen (HClip j)) l) <-> (exists j, In j l /\ h = HClip j) \/ P.
Proof.
  revert P. induction l as [|x l IH]; intros P; cbn [map still_open].
  - split; [tauto|]. intros [(j & [] & _)|H]; exact H.
  - rewrite IH. split.
    + intros [(j & Hj & ->)|[->|HP]]; [left; exists j; split; [right|]|left; exists x; split; [left|]|right];
        auto.
    + intros [(j & [<-|Hj] & ->)|HP]; [right; left; reflexivity|left; exists j; auto|right; right; exact HP].
Qed.

Lemma loaded_handles h n :
  In h (open_handles ([] ++ map (fun j => EOpen (HClip j)) (seq 0 n))) <->
  exists i, (i < n)%nat /\ h = HClip i.
Proof.
  rewrite open_handles_app, still_open_opens. cbn [open_handles fold_left In].
  split; [intros [(j & Hj & ->)|[]]; exists j; apply in_seq in Hj; split; [lia|reflexivity]|].
  intros (i & Hi & ->). left. exists i. split; [apply in_seq; lia|reflexivity].
Qed.

Lemma extract_loop_some sc L idx cs acc :
  0 < L -> exists segs, extract_loop sc idx cs L acc = Some segs.
Proof.
  intro HL. revert idx acc. induction cs as [|c cs IH]; intros idx acc; [eexists; reflexivity|].
  cbn [extract_loop]. destruct (split_in_segments (duration c) L) eqn:E.
  - apply IH.
  - exfalso. exact (split_in_segments_terminates _ _ HL E).
Qed.

Lemma arrange_extracted sc clips L segs mx mn :
  extract_best_segment_per_clip sc clips L = Some segs -> (0 <= mn \/ 0 <= mx) ->
  exists out, arrange_best_segments segs mx mn = inr out /\
  Forall (fun x => In (sub_clip x) clips /\ 0 <= sub_start x /\ sub_end x <= duration (sub_clip x) /\
                   mn <= sub_end x - sub_start x) out.
Proof.
  intros Hsegs Hroom.
  apply extract_loop_picks in Hsegs. cbn [app] in Hsegs.
  assert (Hg : Forall (fun s => In (seg_clip s) clips /\
                                good_window (duration (seg_clip s)) (t_start s, t_end s)) segs).
  { apply Forall_forall. intros s Hs. rewrite Hsegs in Hs. exact (picks_good _ _ _ _ _ Hs). }
  destruct (arrange_loop_within mx mn segs [] 0) as (r & Hr & H1 & H2).
  { eapply Forall_impl; [|exact Hg]. intros s [_ Hs]. exact Hs. }
  { exact Hroom. }
  exists (fst r). split; [unfold arrange_best_segments; rewrite Hr; reflexivity|].
  specialize (H2 (Forall_nil _)).
  rewrite Forall_forall in H1, H2 |- *. intros x Hx.
  destruct (H1 x Hx) as [Hc|[]]. split; [|exact (H2 x Hx)].
  apply in_map_iff in Hc as (s & <- & Hs). rewrite Forall_forall in Hg. apply (Hg s Hs).
Qed.

(** ** Theorems on the remaining code *)

(** [concat_and_export] of [app/video_processor.py]: on an empty list it
    raises [ValueError("No clips selected.")] with no I/O; otherwise it
    writes [export_path] once and returns or raises as the write does, and
    every given clip is closed on both outcomes; only the concatenated
    clip stays open, and only when the write fails. *)
Theorem vp_concat_and_export_closes_clips (env : media_env) (clips : list VideoProcessor.vclip)
    (export_path : string) (s : state) :
  let r := VideoProcessor.concat_and_export env clips export_path s in
  fst r = match clips with
          | [] => Raised (ValueError "No clips selected.")
          | _ :: _ => if env_write_ok env then Normal tt else Raised WriteError
          end /\
  writes (st_trace (snd r)) =
    writes (st_trace s) ++ match clips with [] => [] | _ :: _ => [export_path] end /\
  forall h, In h (open_handles (st_trace (snd r))) <->
    (In h (open_handles (st_trace s)) /\
     ~ In h (map (fun v => HClip (clip_id (VideoProcessor.vclip_source v))) clips) /\
     (clips <> [] -> h <> HFinal)) \/
    (h = HFinal /\ clips <> [] /\ env_write_ok env = false).
Proof. exact (vp_concat_and_export_spec env clips export_path s). Qed.

(** [concat_and_export] of [app/build_summary.py], called with at least
    one clip while only clip decoders are open: it writes [export_path]
    once and returns or raises as the write does; afterwards every given
    clip and the music objects it closes are released, the concatenated
    clip stays open only when the write fails, and the first
    [audio_loop] object, whose variable is reassigned before the
    [finally] clause, stays open whenever the music file exists. *)
Theorem concat_and_export_releases (env : media_env) (clips : list subclip) (export_path : string)
    (bg_music_path : option string) (s : state)
    (Hne : clips <> [])
    (Hs : forall h, In h (open_handles (st_trace s)) -> exists i, h = HClip i) :
  let r := concat_and_export env clips export_path bg_music_path s in
  fst r = (if env_write_ok env then Normal tt else Raised WriteError) /\
  writes (st_trace (snd r)) = writes (st_trace s) ++ [export_path] /\
  forall h, In h (open_handles (st_trace (snd r))) <->
    (In h (open_handles (st_trace s)) /\ ~ In h (map (fun c => HClip (clip_id (sub_clip c))) clips)) \/
    (h = HFinal /\ env_write_ok env = false) \/
    (h = HLoop /\ exists m, bg_music_path = Some m /\ env_exists env m = true).
Proof. exact (concat_and_export_spec env clips export_path bg_music_path s Hne Hs). Qed.

Lemma concat_and_export_releases_witness :
  let clips := [mk_subclip (mk_clip 0 10) 0 6] in
  let s := mk_state [EOpen (HClip 0); EOpen (HClip 1)] None None None in
  clips <> [] /\ (forall h, In h (open_handles (st_trace s)) -> exists i, h = HClip i) /\
  let r := concat_and_export env_example clips "out.mp4" (Some "song.mp3"%string) s in
  fst r = (if env_write_ok env_example then Normal tt else Raised WriteError) /\
  writes (st_trace (snd r)) = writes (st_trace s) ++ ["out.mp4"%string] /\
  forall h, In h (open_handles (st_trace (snd r))) <->
    (In h (open_handles (st_trace s)) /\ ~ In h (map (fun c => HClip (clip_id (sub_clip c))) clips)) \/
    (h = HFinal /\ env_write_ok env_example = false) \/
    (h = HLoop /\ exists m, Some "song.mp3"%string = Some m /\ env_exists env_example m = true).
Proof.
  intros clips s.
  assert (Hne : clips <> []) by discriminate.
  assert (Hs : forall h, In h (open_handles (st_trace s)) -> exists i, h = HClip i).
  { intros h Hh. cbn in Hh. destruct Hh as [<-|[<-|[]]]; eexists; reflexivity. }
  split; [exact Hne|]. split; [exact Hs|].
  exact (concat_and_export_releases env_example clips "out.mp4" (Some "song.mp3"%string) s Hne Hs).
Defined.

(** [load_and_normalize_vids] opens one decoder per listed video, in the
    order of [available_vids], and returns the clips numbered [0 .. n-1]
    with the durations of those files. *)
Theorem load_and_normalize_vids_numbering (env : media_env) (folder : directory) (s : state) :
  let n := List.length (available_vids folder) in
  let r := load_and_normalize_vids env folder s in
  exists cs, fst r = Normal cs /\
    map clip_id cs = seq 0 n /\
    map duration cs = map (fun v => env_duration env (entry_name v)) (available_vids folder) /\
    snd r = mk_state (st_trace s ++ map (fun i => EOpen (HClip i)) (seq 0 n))
              (st_music_clip s) (st_music_loop s) (st_mixed_audio s).
Proof.
  intros n r. subst r. unfold load_and_normalize_vids. rewrite load_loop_effect.
  eexists. split; [reflexivity|]. destruct (combine_ids 0 (available_vids folder)
    (fun v => env_duration env (entry_name v))) as [H1 H2].
  split; [exact H1|]. split; [exact H2|reflexivity].
Qed.

(** [build_travel_summary] of [app/video_processor.py], from a fresh
    state: with no video it raises ["No videos found in the given
    folder."]; otherwise the clips are numbered [0 .. n-1] in listing
    order; an exception of [selected_by_duration] is raised with every
    decoder left open; otherwise at the end the decoders still open are
    exactly those of the clips [selected_by_duration] did not keep, plus
    the concatenated clip when the write failed. *)
Theorem vp_build_travel_summary_open_handles (env : media_env) (folder : directory)
    (export_path : string) (max_total_length min_clip_length max_clip_length : Q) :
  let n := List.length (available_vids folder) in
  exists cs, map clip_id cs = seq 0 n /\
    map duration cs = map (fun v => env_duration env (entry_name v)) (available_vids folder) /\
    let sel := VideoProcessor.selected_by_duration cs max_total_length min_clip_length max_clip_length in
    let kept := match sel with inr l => l | inl _ => [] end in
    let r := VideoProcessor.build_travel_summary env folder export_path
               max_total_length min_clip_length max_clip_length init_state in
    fst r = match available_vids folder with
            | [] => Raised (ValueError "No videos found in the given folder.")
            | _ :: _ => match sel with
                        | inl e => Raised e
                        | inr [] => Raised (ValueError "No clips selected.")
                        | inr (_ :: _) => if env_write_ok env then Normal tt else Raised WriteError
                        end
            end /\
    forall h, In h (open_handles (st_trace (snd r))) <->
      (exists i, (i < n)%nat /\ h = HClip i /\
         ~ In h (map (fun v => HClip (clip_id (VideoProcessor.vclip_source v))) kept)) \/
      (h = HFinal /\ kept <> [] /\ env_write_ok env = false).
Proof.
  intro n. unfold VideoProcessor.build_travel_summary. subst n.
  exists (map (fun p => mk_clip (fst p) (env_duration env (entry_name (snd p))))
            (combine (seq 0 (List.length (available_vids folder))) (available_vids folder))).
  destruct (combine_ids 0 (available_vids folder) (fun v => env_duration env (entry_name v)))
    as [H1 H2].
  split; [exact H1|]. split; [exact H2|].
  unfold load_and_normalize_vids.
  destruct (available_vids folder) as [|v vs] eqn:Ev.
  - cbn. split; [reflexivity|]. intro h. split; [intros []|].
    intros [(i & Hi & _)|(_ & H & _)]; [lia|congruence].
  - unfold bind at 1 3. rewrite load_loop_effect. cbv beta iota.
    set (s1 := mk_state (st_trace init_state ++
                         map (fun j => EOpen (HClip j)) (seq 0 (List.length (v :: vs))))
                 (st_music_clip init_state) (st_music_loop init_state) (st_mixed_audio init_state)).
    destruct (VideoProcessor.selected_by_duration _ max_total_length min_clip_length max_clip_length)
      as [e|sel].
    + cbn [of_exc bind raise fst snd]. split; [reflexivity|]. intro h.
      unfold s1. cbn [st_trace init_state]. rewrite loaded_handles. split.
      * intros (i & Hi & ->). left. exists i. repeat split; auto.
      * intros [(i & Hi & -> & _)|(_ & H & _)]; [exists i; auto|congruence].
    + cbn [of_exc bind ret].
      destruct (vp_concat_and_export_spec env sel export_path s1) as (Hr & _ & Hh).
      split; [exact Hr|]. intro h. rewrite Hh. unfold s1. cbn [st_trace init_state]. rewrite loaded_handles.
      split.
      * intros [((i & Hi & ->) & H3 & H4)|H]; [left; exists i; auto|right; exact H].
      * intros [(i & Hi & -> & H3)|H]; [left|right; exact H].
        split; [exists i; auto|]. split; [exact H3|]. intros _. discriminate.
Qed.

(** [build_travel_summary_smart], from a fresh state and with
    [segment_length > 0]: with no video it raises; otherwise
    [arrange_best_segments] returns without raising, the function returns
    or raises as the exporter does, and at the end the decoders still
    open are exactly those of the clips no kept extract comes from, plus
    the concatenated clip when the write failed and the first
    [audio_loop] object when music was added. *)
Theorem build_travel_summary_smart_open_handles (env : media_env) (video_dir : directory)
    (output_path : string) (segment_length max_total_duration : Q)
    (bg_music_path : option string) (HL : 0 < segment_length) :
  let n := List.length (available_vids video_dir) in
  exists cs segs sel, map clip_id cs = seq 0 n /\
    map duration cs = map (fun v => env_duration env (entry_name v)) (available_vids video_dir) /\
    extract_best_segment_per_clip (env_score env) cs segment_length = Some segs /\
    arrange_best_segments segs max_total_duration (3#2) = inr sel /\
    let r := build_travel_summary_smart env video_dir output_path segment_length
               max_total_duration bg_music_path init_state in
    fst r = match available_vids video_dir with
            | [] => Raised (ValueError ("No videos found in " ++ dir_path video_dir))
            | _ :: _ => match sel with
                        | [] => Raised (ValueError "No clips selected.")
                        | _ :: _ => if env_write_ok env then Normal tt else Raised WriteError
                        end
            end /\
    forall h, In h (open_handles (st_trace (snd r))) <->
      (exists i, (i < n)%nat /\ h = HClip i /\
         ~ In h (map (fun c => HClip (clip_id (sub_clip c))) sel)) \/
      (h = HFinal /\ sel <> [] /\ env_write_ok env = false) \/
      (h = HLoop /\ sel <> [] /\ exists m, bg_music_path = Some m /\ env_exists env m = true).
Proof.
  intro n. subst n.
  set (cs := map (fun p => mk_clip (fst p) (env_duration env (entry_name (snd p))))
               (combine (seq 0 (List.length (available_vids video_dir))) (available_vids video_dir))).
  destruct (extract_loop_some (env_score env) segment_length 0 cs [] HL) as [segs Hsegs].
  assert (H32 : 0 <= 3#2) by lra.
  destruct (arrange_extracted (env_score env) cs segment_length segs max_total_duration (3#2)
              Hsegs (or_introl H32)) as (sel & Hsel & _).
  exists cs, segs, sel.
  destruct (combine_ids 0 (available_vids video_dir) (fun v => env_duration env (entry_name v)))
    as [H1 H2].
  split; [exact H1|]. split; [exact H2|]. split; [exact Hsegs|]. split; [exact Hsel|].
  unfold build_travel_summary_smart, load_and_normalize_vids.
  subst cs. destruct (available_vids video_dir) as [|v vs] eqn:Ev.
  - cbn in Hsegs. injection Hsegs as <-. cbn in Hsel. injection Hsel as <-.
    cbn. split; [reflexivity|]. intro h. split; [intros []|].
    intros [(i & Hi & _)|[(_ & H & _)|(_ & H & _)]]; [lia|congruence|congruence].
  - set (s1 := mk_state (st_trace init_state ++
                         map (fun j => EOpen (HClip j)) (seq 0 (List.length (v :: vs))))
                 (st_music_clip init_state) (st_music_loop init_state) (st_mixed_audio init_state)).
    assert (Hrun : (clips <- load_loop env 0 (v :: vs) ;;
                    segments <- of_option (extract_best_segment_per_clip (env_score env) clips segment_length) ;;
                    selected_clips <- of_exc (arrange_best_segments segments max_total_duration (3#2)) ;;
                    concat_and_export env selected_clips output_path bg_music_path) init_state =
                   concat_and_export env sel output_path bg_music_path s1).
    { unfold bind. rewrite load_loop_effect. cbv beta iota.
      unfold extract_best_segment_per_clip. rewrite Hsegs. cbn [of_option ret]. rewrite Hsel. reflexivity. }
    rewrite Hrun. clear Hrun.
    assert (Hs1 : forall h, In h (open_handles (st_trace s1)) <->
                            exists i, (i < List.length (v :: vs))%nat /\ h = HClip i).
    { intro h. apply loaded_handles. }
    destruct sel as [|c cl] eqn:Esel.
    + rewrite concat_and_export_nil. cbn [fst snd st_trace]. split; [reflexivity|].
      intro h. rewrite Hs1. split.
      * intros (i & Hi & ->). left. exists i. repeat split; auto.
      * intros [(i & Hi & -> & _)|[(_ & H & _)|(_ & H & _)]]; [exists i; auto|congruence|congruence].
    + assert (Hne : c :: cl <> []) by discriminate.
      destruct (concat_and_export_spec env (c :: cl) output_path bg_music_path s1 Hne
                  (fun h Hh => match proj1 (Hs1 h) Hh with ex_intro _ i (conj _ Hi) => ex_intro _ i Hi end))
        as (Hr & _ & Hh).
      split; [exact Hr|]. intro h. rewrite Hh, Hs1. split.
      * intros [((i & Hi & ->) & H3)|[(-> & H)|(-> & H)]].
        -- left. exists i. auto.
        -- right. left. repeat split; auto.
        -- right. right. repeat split; auto.
      * intros [(i & Hi & -> & H3)|[(-> & _ & H)|(-> & _ & H)]].
        -- left. split; [exists i; auto|exact H3].
        -- right. left. auto.
        -- right. right. auto.
Qed.

Lemma build_travel_summary_smart_open_handles_witness :
  0 < 6 /\
  let n := List.length (available_vids dir_ab) in
  exists cs segs sel, map clip_id cs = seq 0 n /\
    map duration cs = map (fun v => env_duration (env_durations false) (entry_name v)) (available_vids dir_ab) /\
    extract_best_segment_per_clip (env_score (env_durations false)) cs 6 = Some segs /\
    arrange_best_segments segs 85 (3#2) = inr sel /\
    let r := build_travel_summary_smart (env_durations false) dir_ab "out.mp4" 6 85 (Some "song.mp3"%string)
               init_state in
    fst r = match available_vids dir_ab with
            | [] => Raised (ValueError ("No videos found in " ++ dir_path dir_ab))
            | _ :: _ => match sel with
                        | [] => Raised (ValueError "No clips selected.")
                        | _ :: _ => if env_write_ok (env_durations false) then Normal tt else Raised WriteError
                        end
            end /\
    forall h, In h (open_handles (st_trace (snd r))) <->
      (exists i, (i < n)%nat /\ h = HClip i /\
         ~ In h (map (fun c => HClip (clip_id (sub_clip c))) sel)) \/
      (h = HFinal /\ sel <> [] /\ env_write_ok (env_durations false) = false) \/
      (h = HLoop /\ sel <> [] /\
       exists m, Some "song.mp3"%string = Some m /\ env_exists (env_durations false) m = true).
Proof.
  split; [lra|].
  apply (build_travel_summary_smart_open_handles (env_durations false) dir_ab "out.mp4" 6 85
           (Some "song.mp3"%string)).
  lra.
Defined.

(** ** [selected_by_duration] *)

(** When [0 <= min_clip_length <= max_clip_length], the function returns
    without raising, and every extract starts at 0, lasts between
    [min_clip_length] and [max_clip_length], and is no longer than its
    clip. *)
Theorem selected_by_duration_extracts (clips : list clip)
    (max_total_length min_clip_length max_clip_length : Q)
    (Hmn : 0 <= min_clip_length) (Hm : min_clip_length <= max_clip_length) :
  exists sel, VideoProcessor.selected_by_duration clips max_total_length min_clip_length max_clip_length
              = inr sel /\
    Forall (good_extract min_clip_length max_clip_length) sel.
Proof.
  destruct (VideoProcessorFacts.selected_loop_good max_total_length min_clip_length max_clip_length
              Hmn Hm clips [] 0 (Forall_nil _)) as (r & Hr & Hg).
  exists (fst r). unfold VideoProcessor.selected_by_duration. rewrite Hr. split; [reflexivity|exact Hg].
Qed.

Lemma selected_by_duration_extracts_witness :
  0 <= 2 /\ 2 <= 10 /\
  exists sel, VideoProcessor.selected_by_duration [mk_clip 0 12; mk_clip 1 1; mk_clip 2 5] 60 2 10 = inr sel /\
    Forall (good_extract 2 10) sel.
Proof.
  split; [lra|]. split; [lra|].
  apply selected_by_duration_extracts; lra.
Defined.

(** For non-negative [max_total_length], [min_clip_length] and
    [max_clip_length], the function returns without raising and the
    extracts last at most [max_total_length] in total. *)
Theorem selected_by_duration_budget (clips : list clip)
    (max_total_length min_clip_length max_clip_length : Q)
    (Hmax : 0 <= max_total_length) (Hmn : 0 <= min_clip_length) (Hmc : 0 <= max_clip_length) :
  exists sel, VideoProcessor.selected_by_duration clips max_total_length min_clip_length max_clip_length
              = inr sel /\
    VideoProcessor.sum_vdurations sel <= max_total_length.
Proof.
  destruct (VideoProcessorFacts.selected_loop_budget max_total_length min_clip_length max_clip_length
              Hmn Hmc clips [] 0 (Qeq_refl 0) Hmax) as (r & Hr & Hs).
  exists (fst r). unfold VideoProcessor.selected_by_duration. rewrite Hr. split; [reflexivity|exact Hs].
Qed.

Lemma selected_by_duration_budget_witness :
  0 <= 15 /\ 0 <= 2 /\ 0 <= 10 /\
  exists sel, VideoProcessor.selected_by_duration [mk_clip 0 12; mk_clip 1 1; mk_clip 2 5] 15 2 10 = inr sel /\
    VideoProcessor.sum_vdurations sel <= 15.
Proof.
  split; [lra|]. split; [lra|]. split; [lra|].
  apply selected_by_duration_budget; lra.
Defined.

(** For non-negative [min_clip_length] and [max_clip_length], the printed
    ["Total Duration"] is the sum of the extracts' durations, except when
    the last clip is shortened to fit the budget: then the extracts fill
    the budget exactly and the printed total, which counts that clip at
    its full (capped) length, exceeds the budget. *)
Theorem selected_by_duration_printed_total (clips : list clip)
    (max_total_length min_clip_length max_clip_length : Q)
    (Hmn : 0 <= min_clip_length) (Hmc : 0 <= max_clip_length) :
  exists sel total,
    VideoProcessor.selected_by_duration clips max_total_length min_clip_length max_clip_length = inr sel /\
    VideoProcessor.selected_total clips max_total_length min_clip_length max_clip_length = inr total /\
    (total == VideoProcessor.sum_vdurations sel \/
     (VideoProcessor.sum_vdurations sel == max_total_length /\ max_total_length < total)).
Proof.
  destruct (VideoProcessorFacts.selected_loop_total max_total_length min_clip_length max_clip_length
              Hmn Hmc clips [] 0 (Qeq_refl 0)) as (r & Hr & H).
  exists (fst r), (snd r).
  unfold VideoProcessor.selected_by_duration, VideoProcessor.selected_total. rewrite Hr.
  split; [reflexivity|]. split; [reflexivity|exact H].
Qed.

Lemma selected_by_duration_printed_total_witness :
  0 <= 2 /\ 0 <= 10 /\
  exists sel total,
    VideoProcessor.selected_by_duration [mk_clip 0 12; mk_clip 1 1; mk_clip 2 5] 13 2 10 = inr sel /\
    VideoProcessor.selected_total [mk_clip 0 12; mk_clip 1 1; mk_clip 2 5] 13 2 10 = inr total /\
    (total == VideoProcessor.sum_vdurations sel \/
     (VideoProcessor.sum_vdurations sel == 13 /\ 13 < total)).
Proof.
  split; [lra|]. split; [lra|].
  apply selected_by_duration_printed_total; lra.
Defined.

(** Each clip gives at most one extract, and the extracts follow the
    order of the clips. *)
Theorem selected_by_duration_sources (clips : list clip)
    (max_total_length min_clip_length max_clip_length : Q) (sel : list VideoProcessor.vclip) :
  VideoProcessor.selected_by_duration clips max_total_length min_clip_length max_clip_length = inr sel ->
  sublist (map VideoProcessor.vclip_source sel) clips.
Proof.
  unfold VideoProcessor.selected_by_duration. intro H.
  destruct (VideoProcessor.selected_loop clips max_total_length min_clip_length max_clip_length [] 0)
    as [e|r] eqn:E; cbn [exc_map] in H; [discriminate|]. injection H as <-.
  destruct (VideoProcessorFacts.selected_loop_sources max_total_length min_clip_length max_clip_length
              clips [] 0 r E) as (k & Hk & He).
  rewrite He. exact Hk.
Qed.

Lemma selected_by_duration_sources_witness :
  let sel := match VideoProcessor.selected_by_duration [mk_clip 0 12; mk_clip 1 1; mk_clip 2 5] 60 2 10 with
             | inr l => l
             | inl _ => []
             end in
  VideoProcessor.selected_by_duration [mk_clip 0 12; mk_clip 1 1; mk_clip 2 5] 60 2 10 = inr sel /\
  sublist (map VideoProcessor.vclip_source sel) [mk_clip 0 12; mk_clip 1 1; mk_clip 2 5].
Proof.
  intro sel.
  assert (H : VideoProcessor.selected_by_duration [mk_clip 0 12; mk_clip 1 1; mk_clip 2 5] 60 2 10 = inr sel)
    by reflexivity.
  split; [exact H|].
  exact (selected_by_duration_sources [mk_clip 0 12; mk_clip 1 1; mk_clip 2 5] 60 2 10 sel H).
Defined.

(** ** Selection followed by packing *)

(** Whatever [segment_score] returns, when [min_segment_duration] or
    [max_total_duration] is non-negative, [arrange_best_segments] returns
    without raising on the output of [extract_best_segment_per_clip], and
    every extract it keeps is a piece of one of the input clips: it starts
    at or after 0, ends within the clip, and lasts at least
    [min_segment_duration]. *)
Theorem smart_extracts_within_clips (segment_score : clip -> Q -> Q -> Q) (clips : list clip)
    (segment_length max_total_duration min_segment_duration : Q) (segs : list Segment)
    (Hsegs : extract_best_segment_per_clip segment_score clips segment_length = Some segs)
    (Hroom : 0 <= min_segment_duration \/ 0 <= max_total_duration) :
  exists out, arrange_best_segments segs max_total_duration min_segment_duration = inr out /\
  Forall (fun x => In (sub_clip x) clips /\ 0 <= sub_start x /\ sub_end x <= duration (sub_clip x) /\
                   min_segment_duration <= sub_end x - sub_start x) out.
Proof.
  exact (arrange_extracted segment_score clips segment_length segs max_total_duration
           min_segment_duration Hsegs Hroom).
Qed.

Lemma smart_extracts_within_clips_witness :
  let segs := match extract_best_segment_per_clip (fun _ a b => b - a) [mk_clip 0 10; mk_clip 1 3] 6 with
              | Some l => l
              | None => []
              end in
  extract_best_segment_per_clip (fun _ a b => b - a) [mk_clip 0 10; mk_clip 1 3] 6 = Some segs /\
  (0 <= 3#2 \/ 0 <= 8) /\
  exists out, arrange_best_segments segs 8 (3#2) = inr out /\
  Forall (fun x => In (sub_clip x) [mk_clip 0 10; mk_clip 1 3] /\ 0 <= sub_start x /\
                   sub_end x <= duration (sub_clip x) /\ 3#2 <= sub_end x - sub_start x) out.
Proof.
  intro segs.
  assert (H : extract_best_segment_per_clip (fun _ a b => b - a) [mk_clip 0 10; mk_clip 1 3] 6 = Some segs)
    by (vm_compute; reflexivity).
  assert (Hr : 0 <= 3#2 \/ 0 <= 8) by (left; lra).
  split; [exact H|]. split; [exact Hr|].
  exact (smart_extracts_within_clips (fun _ a b => b - a) [mk_clip 0 10; mk_clip 1 3] 6 8 (3#2) segs H Hr).
Defined.

(** ** [available_vids] *)

(** A directory entry is listed exactly when it is a file whose name is a
    non-empty stem followed by one of the extensions of [FORMATS]
    (compared case-sensitively); a hidden file named only [".mp4"] is not
    listed. *)
Theorem available_vids_listed (folder : directory) (v : dir_entry) :
  In v (available_vids folder) <->
  In v (dir_entries folder) /\ entry_is_file v = true /\
  exists base ext, entry_name v = (base ++ ext)%string /\ base <> ""%string /\ In ext FORMATS.
Proof.
  unfold available_vids. rewrite filter_In, andb_true_iff, in_FORMATS_iff.
  split; intros (Hin & Hf & H); (split; [exact Hin|]); (split; [exact Hf|]).
  - assert (Hne : suffix (entry_name v) <> ""%string).
    { intro E. rewrite E in H. destruct H as [H|[H|[H|[H|[]]]]]; discriminate. }
    destruct (suffix_split _ Hne) as (base & Hb & Hn).
    exists base, (suffix (entry_name v)). auto.
  - destruct H as (base & ext & -> & Hb & He). rewrite suffix_of_format by assumption. exact He.
Qed.

(** ** Motion and audio scores *)

Lemma sum_nonneg xs acc : 0 <= acc -> Forall (Qle 0) xs -> 0 <= fold_left Qplus xs acc.
Proof.
  revert acc. induction xs as [|x xs IH]; intros acc Ha Hx; cbn [fold_left]; [exact Ha|].
  inversion Hx; subst. apply IH; [lra|assumption].
Qed.

Lemma mean_nonneg xs : Forall (Qle 0) xs -> 0 <= mean xs.
Proof.
  intro H. unfold mean, Qdiv. apply Qmult_le_0_compat.
  - apply sum_nonneg; [lra|exact H].
  - apply Qinv_le_0_compat. rewrite <- (Qmult_0_l 1). change (0 * 1) with (inject_Z 0).
    rewrite <- Zle_Qle. lia.
Qed.

Lemma sum_zero xs acc : acc == 0 -> Forall (fun x => x == 0) xs -> fold_left Qplus xs acc == 0.
Proof.
  revert acc. induction xs as [|x xs IH]; intros acc Ha Hx; cbn [fold_left]; [exact Ha|].
  inversion Hx; subst. apply IH; [lra|assumption].
Qed.

Lemma mean_zero xs : Forall (fun x => x == 0) xs -> mean xs == 0.
Proof.
  intro H. unfold mean, Qdiv. rewrite (sum_zero xs 0 (Qeq_refl 0) H). apply Qmult_0_l.
Qed.

Lemma sq_nonneg x : 0 <= x * x.
Proof.
  destruct (Qlt_le_dec x 0) as [Hx|Hx].
  - setoid_replace (x * x) with ((- x) * (- x)) by ring. apply Qmult_le_0_compat; lra.
  - apply Qmult_le_0_compat; lra.
Qed.

Lemma motion_loop_nonneg get_frame ts prev diffs :
  Forall (Qle 0) diffs -> Forall (Qle 0) (motion_loop get_frame ts prev diffs).
Proof.
  revert prev diffs. induction ts as [|t ts IH]; intros prev diffs H; cbn [motion_loop]; [exact H|].
  apply IH. destruct prev as [prev|]; [|exact H].
  apply Forall_app. split; [exact H|]. constructor; [|constructor].
  apply mean_nonneg. apply Forall_forall. intros x Hx. apply in_map_iff in Hx as ([y z] & <- & _).
  apply Qabs_nonneg.
Qed.

Lemma combine_diag {A} (l : list A) p : In p (combine l l) -> fst p = snd p.
Proof.
  induction l as [|x l IH]; cbn; [intros []|]. intros [<-|H]; [reflexivity|exact (IH H)].
Qed.

Lemma motion_loop_static (f : frame) ts prev diffs :
  (prev = None \/ prev = Some (map mean f)) ->
  Forall (fun d => d == 0) diffs ->
  Forall (fun d => d == 0) (motion_loop (fun _ => f) ts prev diffs).
Proof.
  revert prev diffs. induction ts as [|t ts IH]; intros prev diffs Hp H; cbn [motion_loop]; [exact H|].
  apply IH; [right; reflexivity|]. destruct Hp as [->| ->]; [exact H|].
  apply Forall_app. split; [exact H|]. constructor; [|constructor].
  apply mean_zero. apply Forall_forall. intros x Hx. apply in_map_iff in Hx as ([y z] & <- & Hyz).
  apply combine_diag in Hyz. cbn in Hyz. subst z. setoid_replace (y - y) with 0 by ring. reflexivity.
Qed.

Lemma audio_energy_body_nonneg audio audio_subclip audio_duration to_soundarray sqrt
    (Hsqrt : forall x, 0 <= x -> 0 <= sqrt x) a t_start t_end r :
  audio_energy_body audio audio_subclip audio_duration to_soundarray sqrt a t_start t_end = inr r ->
  0 <= r.
Proof.
  unfold audio_energy_body, exc_bind.
  destruct (audio_subclip a t_start t_end) as [e|a']; [discriminate|].
  destruct (Qleb _ 0); [intros [= <-]; lra|].
  destruct (Qleb (py_max 0 _) 0); [intros [= <-]; lra|].
  destruct (Z.leb _ 0); [intros [= <-]; lra|].
  destruct (to_soundarray a' _ 22050%Z) as [e|arr]; [discriminate|].
  intros [= <-]. apply Hsqrt. apply mean_nonneg.
  apply Forall_forall. intros x Hx. apply in_map_iff in Hx as (y & <- & _). apply sq_nonneg.
Qed.

Lemma audio_energy_nonneg audio clip_audio audio_subclip audio_duration to_soundarray sqrt
    (Hsqrt : forall x, 0 <= x -> 0 <= sqrt x) c t_start t_end :
  exists e, fst (audio_energy_for_segment audio clip_audio audio_subclip audio_duration to_soundarray
                   sqrt c t_start t_end) = inr e /\ 0 <= e.
Proof.
  unfold audio_energy_for_segment. destruct (clip_audio c) as [a|]; [|exists 0; split; [reflexivity|lra]].
  destruct (audio_energy_body audio audio_subclip audio_duration to_soundarray sqrt a t_start t_end)
    as [e|r] eqn:E; [exists 0; split; [reflexivity|lra]|].
  exists r. split; [reflexivity|]. exact (audio_energy_body_nonneg _ _ _ _ _ Hsqrt _ _ _ _ E).
Qed.

Lemma motion_score_ge0 (get_frame : Q -> frame) (t_start t_end : Q) (n_samples : nat) :
  0 <= motion_score_for_segment get_frame t_start t_end n_samples.
Proof.
  unfold motion_score_for_segment.
  pose proof (motion_loop_nonneg get_frame (linspace_closed t_start t_end n_samples) None []
                (Forall_nil _)) as H.
  destruct (motion_loop get_frame (linspace_closed t_start t_end n_samples) None []) as [|d ds];
    [lra|apply mean_nonneg; exact H].
Qed.

(** [motion_score_for_segment] is never negative, whatever the frames. *)
Theorem motion_score_nonneg (get_frame : Q -> frame) (t_start t_end : Q) (n_samples : nat) :
  0 <= motion_score_for_segment get_frame t_start t_end n_samples.
Proof. exact (motion_score_ge0 get_frame t_start t_end n_samples). Qed.

(** [motion_score_for_segment] is 0 when fewer than two frames are
    sampled (no difference is taken) and when the frames do not change. *)
Theorem motion_score_no_motion (get_frame : Q -> frame) (f : frame) (t_start t_end : Q)
    (n_samples : nat) :
  motion_score_for_segment get_frame t_start t_end 0 = 0 /\
  motion_score_for_segment get_frame t_start t_end 1 = 0 /\
  motion_score_for_segment (fun _ => f) t_start t_end n_samples == 0.
Proof.
  split; [reflexivity|]. split; [reflexivity|].
  unfold motion_score_for_segment.
  pose proof (motion_loop_static f (linspace_closed t_start t_end n_samples) None []
                (or_introl eq_refl) (Forall_nil _)) as H.
  destruct (motion_loop (fun _ => f) (linspace_closed t_start t_end n_samples) None []) as [|d ds];
    [reflexivity|apply mean_zero; exact H].
Qed.

(** When [np.sqrt] is non-negative on non-negative inputs,
    [audio_energy_for_segment] returns a non-negative energy. *)
Theorem audio_energy_for_segment_nonneg (audio : Type) (clip_audio : clip -> option audio)
    (audio_subclip : audio -> Q -> Q -> exn + audio) (audio_duration : audio -> option Q)
    (to_soundarray : audio -> list Q -> Z -> exn + sound_array) (sqrt : Q -> Q)
    (Hsqrt : forall x, 0 <= x -> 0 <= sqrt x) (c : clip) (t_start t_end : Q) :
  exists e, fst (audio_energy_for_segment audio clip_audio audio_subclip audio_duration to_soundarray
                   sqrt c t_start t_end) = inr e /\ 0 <= e.
Proof. exact (audio_energy_nonneg audio clip_audio audio_subclip audio_duration to_soundarray sqrt Hsqrt
                c t_start t_end). Qed.

(** [segment_score] never raises, and with non-negative weights (the
    defaults are 0.3 and 0.7) its score is non-negative. *)
Theorem segment_score_nonneg (get_frame : clip -> Q -> frame) (audio : Type)
    (clip_audio : clip -> option audio) (audio_subclip : audio -> Q -> Q -> exn + audio)
    (audio_duration : audio -> option Q) (to_soundarray : audio -> list Q -> Z -> exn + sound_array)
    (sqrt : Q -> Q) (Hsqrt : forall x, 0 <= x -> 0 <= sqrt x)
    (c : clip) (t_start t_end w_motion w_audio : Q)
    (Hwm : 0 <= w_motion) (Hwa : 0 <= w_audio) :
  exists sc, segment_score get_frame audio clip_audio audio_subclip audio_duration to_soundarray sqrt
               c t_start t_end w_motion w_audio = inr sc /\ 0 <= sc.
Proof.
  unfold segment_score.
  destruct (audio_energy_nonneg audio clip_audio audio_subclip audio_duration to_soundarray sqrt Hsqrt
              c t_start t_end) as (e & He & He0).
  rewrite He. cbn [exc_bind]. eexists. split; [reflexivity|].
  pose proof (motion_score_ge0 (get_frame c) t_start t_end 5) as Hm.
  assert (0 <= w_motion * motion_score_for_segment (get_frame c) t_start t_end 5)
    by (apply Qmult_le_0_compat; assumption).
  assert (0 <= w_audio * e) by (apply Qmult_le_0_compat; assumption).
  lra.
Qed.

Lemma segment_score_nonneg_witness :
  (forall x, 0 <= x -> 0 <= Qabs x) /\ 0 <= (3#10) /\ 0 <= (7#10) /\
  exists sc, segment_score (fun _ _ => [[1; 2; 3]]) unit (fun _ => None)
               (fun a _ _ => inr a) (fun _ => None) (fun _ _ _ => inr (Mono [])) Qabs
               (mk_clip 0 10) 0 6 (3#10) (7#10) = inr sc /\ 0 <= sc.
Proof.
  assert (Hs : forall x, 0 <= x -> 0 <= Qabs x) by (intros x _; apply Qabs_nonneg).
  split; [exact Hs|]. split; [lra|]. split; [lra|].
  apply (segment_score_nonneg (fun _ _ => [[1; 2; 3]]) unit (fun _ => None)
           (fun a _ _ => inr a) (fun _ => None) (fun _ _ _ => inr (Mono [])) Qabs Hs
           (mk_clip 0 10) 0 6 (3#10) (7#10)); lra.
Defined.

Lemma audio_energy_for_segment_nonneg_witness :
  (forall x, 0 <= x -> 0 <= Qabs x) /\
  exists e, fst (audio_energy_for_segment unit (fun _ => Some tt) (fun a _ _ => inr a) (fun _ => None)
                   (fun _ _ _ => inr (Multi [[1; -1]; [3; 5]])) Qabs (mk_clip 0 10) 0 6) = inr e /\ 0 <= e.
Proof.
  assert (Hs : forall x, 0 <= x -> 0 <= Qabs x) by (intros x _; apply Qabs_nonneg).
  split; [exact Hs|].
  exact (audio_energy_for_segment_nonneg unit (fun _ => Some tt) (fun a _ _ => inr a) (fun _ => None)
           (fun _ _ _ => inr (Multi [[1; -1]; [3; 5]])) Qabs Hs (mk_clip 0 10) 0 6).
Defined.

(** Unlike the ["Total Duration"] of [selected_by_duration], the
    ["Total length (smart)"] printed by [arrange_best_segments] is always
    the sum of the durations of the extracts it returns: a truncated last
    extract is counted at its truncated length [remaining]. This holds
    whenever the function returns without raising, which it does on
    segments that start within their clip and end at a non-negative time
    when [min_segment_duration] or [max_total_duration] is non-negative. *)
Theorem arrange_best_segments_printed_total (segments : list Segment)
    (max_total_duration min_segment_duration : Q)
    (Hsegs : Forall seg_in_clip segments)
    (Hroom : 0 <= min_segment_duration \/ 0 <= max_total_duration) :
  exists out total,
    arrange_best_segments segments max_total_duration min_segment_duration = inr out /\
    arrange_total segments max_total_duration min_segment_duration = inr total /\
    total == sum_durations out.
Proof.
  destruct (arrange_loop_total max_total_duration min_segment_duration segments [] 0
              Hsegs (Qeq_refl 0) Hroom) as (r & Hr & Hs & _).
  exists (fst r), (snd r).
  unfold arrange_total, arrange_best_segments. rewrite Hr.
  split; [reflexivity|]. split; [reflexivity|]. symmetry. exact Hs.
Qed.

Lemma arrange_best_segments_printed_total_witness :
  Forall seg_in_clip [mk_Segment (mk_clip 0 10) 0 6 1 0; mk_Segment (mk_clip 1 8) 2 8 1 1] /\
  (0 <= 3#2 \/ 0 <= 10) /\
  exists out total,
    arrange_best_segments [mk_Segment (mk_clip 0 10) 0 6 1 0; mk_Segment (mk_clip 1 8) 2 8 1 1] 10 (3#2)
      = inr out /\
    arrange_total [mk_Segment (mk_clip 0 10) 0 6 1 0; mk_Segment (mk_clip 1 8) 2 8 1 1] 10 (3#2)
      = inr total /\
    total == sum_durations out.
Proof.
  assert (Hs : Forall seg_in_clip [mk_Segment (mk_clip 0 10) 0 6 1 0; mk_Segment (mk_clip 1 8) 2 8 1 1]).
  { repeat constructor; unfold seg_in_clip; cbn; lra. }
  assert (Hr : 0 <= 3#2 \/ 0 <= 10) by (left; lra).
  split; [exact Hs|]. split; [exact Hr|].
  exact (arrange_best_segments_printed_total _ 10 (3#2) Hs Hr).
Defined.
